(** * CSDAtomics: the atomic cells of CServiceDiscoveryHelpers

    A shallow embedding of [Sources/CServiceDiscoveryHelpers/CSDAtomics.c]
    and of the two structs of [include/CSDAtomics.h], followed by the
    properties of the cells: compare-and-exchange, fetch-and-add,
    fetch-and-subtract, load and store on [long] and [bool] payloads,
    independence of distinct cells, and the absence of lost updates when
    several threads increment one cell.

    Layout of the development:
    - [stdatomic]   the generic functions of <stdatomic.h> that the file calls;
    - [CSDAtomics]  the heap of wrappers and the twelve C functions;
    - the theorems, grouped by operation. *)

From stdpp Require Import base option numbers list gmap relations.
From Stdlib Require Import ZArith Lia.

Local Open Scope Z_scope.

(* ===================================================================== *)
(** ** The generic functions of <stdatomic.h>                             *)
(* ===================================================================== *)

Module stdatomic.

(** [memory_order]: the source only ever passes [memory_order_relaxed];
    [atomic_compare_exchange_strong] is the sequentially consistent form.
    The order constrains accesses to other locations, never the value the
    operation computes on its own object. *)
Inductive memory_order : Set :=
| memory_order_relaxed
| memory_order_seq_cst.

(** Two's-complement reduction of an integer to a signed [w]-bit value. *)
Definition wrap_signed (w x : Z) : Z :=
  (x + 2 ^ (w - 1)) mod 2 ^ w - 2 ^ (w - 1).

(** Reduction of an integer to an unsigned [w]-bit pattern. *)
Definition wrap_unsigned (w x : Z) : Z := x mod 2 ^ w.

(** The values a signed [w]-bit object can hold. *)
Definition in_signed (w x : Z) : Prop :=
  - 2 ^ (w - 1) <= x < 2 ^ (w - 1).

(** The patterns an unsigned [w]-bit object can hold. *)
Definition in_unsigned (w x : Z) : Prop := 0 <= x < 2 ^ w.

(** [atomic_init(obj, value)]: the object starts out holding [value]. *)
Definition atomic_init (value : Z) : Z := value.

(** [atomic_load_explicit(obj, order)]. *)
Definition atomic_load_explicit (obj : Z) (_ : memory_order) : Z := obj.

(** [atomic_store_explicit(obj, desired, order)]: the new content. *)
Definition atomic_store_explicit (obj desired : Z) (_ : memory_order) : Z :=
  desired.

(** [atomic_fetch_add_explicit(obj, operand, order)]: one read-modify-write
    step. The result is the content before the step; the content after it
    is the sum reduced by [wrap] to the width of the object (C11 7.17.7.5:
    silent wrap-around, no undefined results). Returns (result, content). *)
Definition atomic_fetch_add_explicit
    (wrap : Z → Z) (obj operand : Z) (_ : memory_order) : Z * Z :=
  (obj, wrap (obj + operand)).

(** [atomic_fetch_sub_explicit(obj, operand, order)]. *)
Definition atomic_fetch_sub_explicit
    (wrap : Z → Z) (obj operand : Z) (_ : memory_order) : Z * Z :=
  (obj, wrap (obj - operand)).

(** [atomic_compare_exchange_strong(obj, &expected, desired)]: compares the
    content of the object with the content of [expected]. When they are
    equal the object receives [desired]; otherwise [expected] receives the
    content of the object. The strong form never fails when they are equal.
    Returns (result, content of the object, content of [expected]). *)
Definition atomic_compare_exchange_strong
    (obj expected desired : Z) : bool * Z * Z :=
  if bool_decide (obj = expected)
  then (true, desired, expected)
  else (false, obj, obj).

End stdatomic.

Import stdatomic.

(* ===================================================================== *)
(** ** The wrappers and the C functions                                   *)
(* ===================================================================== *)

(** [struct c_sd_atomic_long { _Atomic long value; }] and
    [struct c_sd_atomic_bool { _Atomic bool value; }]. The [long] member is
    the signed integer it holds; the [bool] member is the one byte of
    storage it occupies, as an unsigned pattern. *)
Inductive object : Set :=
| c_sd_atomic_long (value : Z)
| c_sd_atomic_bool (value : Z).

Global Instance object_eq_dec : EqDecision object.
Proof. solve_decision. Defined.

(** The allocated wrappers, by address (a [positive]). A pointer outside the
    domain is dangling. *)
Abbreviation heap := (gmap positive object).

(** Width in bits of the storage of [_Atomic bool]. *)
Definition bool_bits : Z := 8.

(** Conversion of a C [bool] to its stored byte: [true] is 1, [false] 0. *)
Definition byte_of_bool (b : bool) : Z := Z.b2z b.

(** Reading of a stored [bool] byte. The bytes 0 and 1 are the two values
    of [_Bool] and read as [false] and [true]; this is all the source
    grounds. No function of the file stores another byte (see
    [wrap_bool_canonical] and [byte_of_bool]). Modelled from the spec: for
    a byte put there by other means, to which C gives no value, the spec's
    "on a single bit", "modulo 2" is followed and the boolean is bit 0. *)
Definition bool_of_byte (x : Z) : bool := Z.testbit x 0.

(** Modelled from the spec: the number of bits on which
    [atomic_fetch_add_explicit] and [atomic_fetch_sub_explicit] work on an
    [_Atomic bool]. C11 7.17.7.5 excludes [atomic_bool] from these
    operations, so the source does not say. The spec has them work "on a
    single bit", with "subtraction and addition of 1 ... identical modulo
    2" and a "wraparound toggling" of a representation that is "exactly
    0/1". *)
Definition bool_value_bits : Z := 1.

(** Modelled from the spec: the reduction of a sum or difference computed
    on an [_Atomic bool] to [bool_value_bits] bits, so that true plus true
    wraps to false. *)
Definition wrap_bool (x : Z) : Z := wrap_unsigned bool_value_bits x.

(** The local variables of a compare-and-exchange call when it returns. *)
Record cas_frame : Set := mk_cas_frame {
  local_expected : Z;
  local_desired : Z;
  local_expected_copy : Z
}.

Section CSDAtomics.

(** Width in bits of the C type [long] on the target. *)
Variable long_bits : Z.

(** The call of [malloc] for one wrapper, seen as a function of the
    current heap: [None] is the null pointer. *)
Variable malloc : gmap positive object → option positive.

Definition wrap_long (x : Z) : Z := wrap_signed long_bits x.

Definition in_long (x : Z) : Prop := in_signed long_bits x.

(** *** AtomicInteger *)

(** Writing through the null pointer has no defined result: [None]. *)
Definition c_sd_atomic_long_create (h : heap) (value : Z)
  : option (positive * heap) :=
  match malloc h with
  | Some wrapper =>
      Some (wrapper, <[wrapper := c_sd_atomic_long (atomic_init value)]> h)
  | None => None
  end.

(** The body of [c_sd_atomic_long_compare_and_exchange], with the locals
    of the call as they are at the [return]. *)
Definition c_sd_atomic_long_compare_and_exchange_body
    (h : heap) (wrapper : positive) (expected desired : Z)
  : option (bool * heap * cas_frame) :=
  match h !! wrapper with
  | Some (c_sd_atomic_long obj) =>
      let expected_copy := expected in
      let '(r, obj', expected_copy') :=
        atomic_compare_exchange_strong obj expected_copy desired in
      Some (r, <[wrapper := c_sd_atomic_long obj']> h,
            mk_cas_frame expected desired expected_copy')
  | _ => None
  end.

(** What the caller gets: the [bool] result and the heap. *)
Definition c_sd_atomic_long_compare_and_exchange
    (h : heap) (wrapper : positive) (expected desired : Z)
  : option (bool * heap) :=
  fst <$> c_sd_atomic_long_compare_and_exchange_body h wrapper expected desired.

Definition c_sd_atomic_long_add (h : heap) (wrapper : positive) (value : Z)
  : option (Z * heap) :=
  match h !! wrapper with
  | Some (c_sd_atomic_long obj) =>
      let '(r, obj') :=
        atomic_fetch_add_explicit wrap_long obj value memory_order_relaxed in
      Some (r, <[wrapper := c_sd_atomic_long obj']> h)
  | _ => None
  end.

Definition c_sd_atomic_long_sub (h : heap) (wrapper : positive) (value : Z)
  : option (Z * heap) :=
  match h !! wrapper with
  | Some (c_sd_atomic_long obj) =>
      let '(r, obj') :=
        atomic_fetch_sub_explicit wrap_long obj value memory_order_relaxed in
      Some (r, <[wrapper := c_sd_atomic_long obj']> h)
  | _ => None
  end.

Definition c_sd_atomic_long_load (h : heap) (wrapper : positive) : option Z :=
  match h !! wrapper with
  | Some (c_sd_atomic_long obj) =>
      Some (atomic_load_explicit obj memory_order_relaxed)
  | _ => None
  end.

Definition c_sd_atomic_long_store (h : heap) (wrapper : positive) (value : Z)
  : option heap :=
  match h !! wrapper with
  | Some (c_sd_atomic_long obj) =>
      Some (<[wrapper :=
                c_sd_atomic_long
                  (atomic_store_explicit obj value memory_order_relaxed)]> h)
  | _ => None
  end.

(** *** AtomicBoolean *)

Definition c_sd_atomic_bool_create (h : heap) (value : bool)
  : option (positive * heap) :=
  match malloc h with
  | Some wrapper =>
      Some (wrapper,
            <[wrapper := c_sd_atomic_bool (atomic_init (byte_of_bool value))]> h)
  | None => None
  end.

Definition c_sd_atomic_bool_compare_and_exchange_body
    (h : heap) (wrapper : positive) (expected desired : bool)
  : option (bool * heap * cas_frame) :=
  match h !! wrapper with
  | Some (c_sd_atomic_bool obj) =>
      let expected_copy := byte_of_bool expected in
      let '(r, obj', expected_copy') :=
        atomic_compare_exchange_strong obj expected_copy (byte_of_bool desired) in
      Some (r, <[wrapper := c_sd_atomic_bool obj']> h,
            mk_cas_frame (byte_of_bool expected) (byte_of_bool desired)
                         expected_copy')
  | _ => None
  end.

Definition c_sd_atomic_bool_compare_and_exchange
    (h : heap) (wrapper : positive) (expected desired : bool)
  : option (bool * heap) :=
  fst <$> c_sd_atomic_bool_compare_and_exchange_body h wrapper expected desired.

Definition c_sd_atomic_bool_add (h : heap) (wrapper : positive) (value : bool)
  : option (bool * heap) :=
  match h !! wrapper with
  | Some (c_sd_atomic_bool obj) =>
      let '(r, obj') :=
        atomic_fetch_add_explicit wrap_bool obj (byte_of_bool value)
                                  memory_order_relaxed in
      Some (bool_of_byte r, <[wrapper := c_sd_atomic_bool obj']> h)
  | _ => None
  end.

Definition c_sd_atomic_bool_sub (h : heap) (wrapper : positive) (value : bool)
  : option (bool * heap) :=
  match h !! wrapper with
  | Some (c_sd_atomic_bool obj) =>
      let '(r, obj') :=
        atomic_fetch_sub_explicit wrap_bool obj (byte_of_bool value)
                                  memory_order_relaxed in
      Some (bool_of_byte r, <[wrapper := c_sd_atomic_bool obj']> h)
  | _ => None
  end.

Definition c_sd_atomic_bool_load (h : heap) (wrapper : positive) : option bool :=
  match h !! wrapper with
  | Some (c_sd_atomic_bool obj) =>
      Some (bool_of_byte (atomic_load_explicit obj memory_order_relaxed))
  | _ => None
  end.

Definition c_sd_atomic_bool_store (h : heap) (wrapper : positive) (value : bool)
  : option heap :=
  match h !! wrapper with
  | Some (c_sd_atomic_bool obj) =>
      Some (<[wrapper :=
                c_sd_atomic_bool
                  (atomic_store_explicit obj (byte_of_bool value)
                                         memory_order_relaxed)]> h)
  | _ => None
  end.

(** *** Sequences of calls *)

(** One call on a wrapper, with its arguments. *)
Inductive call : Set :=
| long_compare_and_exchange (expected desired : Z)
| long_add (value : Z)
| long_sub (value : Z)
| long_load
| long_store (value : Z)
| bool_compare_and_exchange (expected desired : bool)
| bool_add (value : bool)
| bool_sub (value : bool)
| bool_load
| bool_store (value : bool).

(** What a call returns. *)
Inductive result : Set :=
| ret_long (r : Z)
| ret_bool (r : bool)
| ret_void.

Global Instance call_eq_dec : EqDecision call.
Proof. solve_decision. Defined.

Global Instance result_eq_dec : EqDecision result.
Proof. solve_decision. Defined.

Definition run_call (h : heap) (wrapper : positive) (c : call)
  : option (result * heap) :=
  match c with
  | long_compare_and_exchange e d =>
      '(r, h') ← c_sd_atomic_long_compare_and_exchange h wrapper e d;
      Some (ret_bool r, h')
  | long_add v =>
      '(r, h') ← c_sd_atomic_long_add h wrapper v; Some (ret_long r, h')
  | long_sub v =>
      '(r, h') ← c_sd_atomic_long_sub h wrapper v; Some (ret_long r, h')
  | long_load =>
      r ← c_sd_atomic_long_load h wrapper; Some (ret_long r, h)
  | long_store v =>
      h' ← c_sd_atomic_long_store h wrapper v; Some (ret_void, h')
  | bool_compare_and_exchange e d =>
      '(r, h') ← c_sd_atomic_bool_compare_and_exchange h wrapper e d;
      Some (ret_bool r, h')
  | bool_add v =>
      '(r, h') ← c_sd_atomic_bool_add h wrapper v; Some (ret_bool r, h')
  | bool_sub v =>
      '(r, h') ← c_sd_atomic_bool_sub h wrapper v; Some (ret_bool r, h')
  | bool_load =>
      r ← c_sd_atomic_bool_load h wrapper; Some (ret_bool r, h)
  | bool_store v =>
      h' ← c_sd_atomic_bool_store h wrapper v; Some (ret_void, h')
  end.

(** A sequence of calls, each on its own wrapper, run in order. *)
Fixpoint run (h : heap) (tr : list (positive * call))
  : option (list result * heap) :=
  match tr with
  | [] => Some ([], h)
  | (wrapper, c) :: tr' =>
      '(r, h') ← run_call h wrapper c;
      '(rs, h'') ← run h' tr';
      Some (r :: rs, h'')
  end.

(** The calls of a sequence that target [wrapper]. *)
Definition calls_on (wrapper : positive) (tr : list (positive * call))
  : list (positive * call) :=
  filter (λ pc, pc.1 = wrapper) tr.

(** *** Well-formed heaps *)

(** Every [long] member holds a value of the type and every [bool] member
    one byte. *)
Definition wf_object (o : object) : Prop :=
  match o with
  | c_sd_atomic_long v => in_long v
  | c_sd_atomic_bool x => in_unsigned bool_bits x
  end.

Definition wf_heap (h : heap) : Prop := map_Forall (λ _ o, wf_object o) h.

(** The [long] arguments of a call are values of the type. *)
Definition wf_call (c : call) : Prop :=
  match c with
  | long_compare_and_exchange e d => in_long e ∧ in_long d
  | long_add v | long_sub v | long_store v => in_long v
  | _ => True
  end.

(** *** Threads incrementing one cell *)

(** A thread is a loop that calls [c_sd_atomic_long_add (wrapper, 1)]; its
    state is the number of calls it still has to make. A step of the pool
    is one call of one thread: the call is one read-modify-write step on
    the shared heap. *)
Inductive step (wrapper : positive)
  : heap * list N → heap * list N → Prop :=
| step_add h h' ts i n r :
    ts !! i = Some (N.succ n) →
    c_sd_atomic_long_add h wrapper 1 = Some (r, h') →
    step wrapper (h, ts) (h', <[i := n]> ts).

(** Calls that the threads of a pool still have to make. *)
Definition pending (ts : list N) : Z := foldr (λ n acc, Z.of_N n + acc) 0 ts.

(** *** Threads running sequences of calls *)

(** A thread: the calls it still has to make, and what its calls have
    returned so far, oldest first. *)
Record thread : Set := mk_thread {
  todo : list (positive * call);
  returned : list result
}.

(** A step of a pool: one thread makes its next call, as one step on the
    shared heap, and records what the call returned. *)
Inductive pool_step : heap * list thread → heap * list thread → Prop :=
| pool_step_call h h' ts i wrapper c tr rs r :
    ts !! i = Some (mk_thread ((wrapper, c) :: tr) rs) →
    run_call h wrapper c = Some (r, h') →
    pool_step (h, ts) (h', <[i := mk_thread tr (rs ++ [r])]> ts).

(** Every thread has made all its calls. *)
Definition joined (ts : list thread) : Prop := Forall (λ t, todo t = []) ts.

(** Number of calls the threads still have to make. *)
Definition remaining (ts : list thread) : nat :=
  foldr (λ t acc, (length (todo t) + acc)%nat) 0%nat ts.

(** What a call adds to an integer cell, for the two arithmetic calls. *)
Definition call_delta (c : call) : Z :=
  match c with
  | long_add v => v
  | long_sub v => - v
  | _ => 0
  end.

Definition is_add_sub (c : call) : Prop :=
  match c with
  | long_add _ | long_sub _ => True
  | _ => False
  end.

Definition todo_delta (tr : list (positive * call)) : Z :=
  foldr (λ pc acc, call_delta pc.2 + acc) 0 tr.

Definition pool_delta (ts : list thread) : Z :=
  foldr (λ t acc, todo_delta (todo t) + acc) 0 ts.

(** The threads of a configuration only add to and subtract from
    [wrapper], whose content plus the deltas still to come is [total]
    modulo the width of [long]. *)
Definition add_sub_pool (wrapper : positive) (total : Z)
    (c : heap * list thread) : Prop :=
  Forall (λ t, Forall (λ pc, pc.1 = wrapper ∧ is_add_sub pc.2) (todo t)) c.2
  ∧ ∃ v, c.1 !! wrapper = Some (c_sd_atomic_long v)
         ∧ in_long v
         ∧ wrap_long (v + pool_delta c.2) = total.

(** The threads whose one call returned [true]. *)
Definition winners (ts : list thread) : nat :=
  length (filter (λ t, returned t = [ret_bool true]) ts).

(** Threads that each make the one call [c] on [wrapper]: either the cell
    still holds [o_init] and no thread has called, or it holds [o_won], the
    threads that have called hold their result, and one of them holds
    [true]. *)
Definition single_winner (wrapper : positive) (c : call)
    (o_init o_won : object) (cfg : heap * list thread) : Prop :=
  (cfg.1 !! wrapper = Some o_init
   ∧ Forall (λ t, t = mk_thread [(wrapper, c)] []) cfg.2)
  ∨ (cfg.1 !! wrapper = Some o_won
     ∧ Forall (λ t, t = mk_thread [(wrapper, c)] []
                    ∨ t = mk_thread [] [ret_bool true]
                    ∨ t = mk_thread [] [ret_bool false]) cfg.2
     ∧ winners cfg.2 = 1%nat).

(** Everything the calls of the threads have returned. *)
Definition all_returned (ts : list thread) : list result :=
  concat (returned <$> ts).

(** Threads that only call [add] with 1 on [wrapper], which held [v0] at
    first: after [k] calls in all the cell holds [v0 + k] and the calls have
    returned [v0], ..., [v0 + k - 1], each once. *)
Definition ticket_pool (wrapper : positive) (v0 : Z) (total : nat)
    (cfg : heap * list thread) : Prop :=
  Forall (λ t, Forall (λ pc, pc = (wrapper, long_add 1)) (todo t)) cfg.2
  ∧ ∃ k : nat,
      cfg.1 !! wrapper = Some (c_sd_atomic_long (v0 + Z.of_nat k))
      ∧ (k + remaining cfg.2 = total)%nat
      ∧ all_returned cfg.2
        ≡ₚ (λ j : nat, ret_long (v0 + Z.of_nat j)) <$> seq 0 k.

(** *** Further predicates on heaps and calls *)

Definition is_long (o : object) : bool :=
  match o with
  | c_sd_atomic_long _ => true
  | c_sd_atomic_bool _ => false
  end.

(** A [long] result is a value of the type. *)
Definition wf_result (r : result) : Prop :=
  match r with
  | ret_long v => in_long v
  | _ => True
  end.

(** Every [bool] member holds the byte of [false] or of [true]. *)
Definition canonical_heap (h : heap) : Prop :=
  map_Forall (λ _ o, match o with
                     | c_sd_atomic_bool x => x = 0 ∨ x = 1
                     | c_sd_atomic_long _ => True
                     end) h.

(** Every call but [c_sd_atomic_bool_add] and [c_sd_atomic_bool_sub]. *)
Definition no_bool_arith (c : call) : Prop :=
  match c with
  | bool_add _ | bool_sub _ => False
  | _ => True
  end.

End CSDAtomics.

(** An allocator that never fails: it hands out an address no wrapper of
    the heap has. *)
Definition malloc_fresh (h : heap) : option positive := Some (fresh (dom h)).

(* ===================================================================== *)
(** ** Wrap-around arithmetic                                             *)
(* ===================================================================== *)

Section wrap.

Variable w : Z.
Hypothesis w_pos : 0 < w.

Lemma pow2_split : 2 ^ w = 2 * 2 ^ (w - 1).
Proof. rewrite <- Z.pow_succ_r by lia. f_equal. lia. Qed.

Lemma pow2_half_pos : 0 < 2 ^ (w - 1).
Proof. apply Z.pow_pos_nonneg; lia. Qed.

Lemma wrap_signed_in_range x : in_signed w (wrap_signed w x).
Proof.
  unfold in_signed, wrap_signed.
  pose proof pow2_split. pose proof pow2_half_pos.
  pose proof (Z.mod_pos_bound (x + 2 ^ (w - 1)) (2 ^ w)). lia.
Qed.

Lemma wrap_signed_id x : in_signed w x → wrap_signed w x = x.
Proof.
  unfold in_signed, wrap_signed. intros Hx.
  pose proof pow2_split. rewrite Z.mod_small; lia.
Qed.

(** The reduced value differs from the exact one by a multiple of [2^w]. *)
Lemma wrap_signed_congr x : ∃ k, wrap_signed w x = x + k * 2 ^ w.
Proof.
  unfold wrap_signed. exists (- ((x + 2 ^ (w - 1)) / 2 ^ w)).
  pose proof pow2_split. pose proof pow2_half_pos.
  pose proof (Z.div_mod (x + 2 ^ (w - 1)) (2 ^ w)). lia.
Qed.

Lemma wrap_signed_plus_l a c :
  wrap_signed w (wrap_signed w a + c) = wrap_signed w (a + c).
Proof.
  unfold wrap_signed. f_equal.
  replace ((a + 2 ^ (w - 1)) mod 2 ^ w - 2 ^ (w - 1) + c + 2 ^ (w - 1))
    with ((a + 2 ^ (w - 1)) mod 2 ^ w + c) by lia.
  rewrite Zplus_mod_idemp_l. f_equal. lia.
Qed.

Lemma wrap_signed_add_sub v d :
  in_signed w v → wrap_signed w (wrap_signed w (v + d) - d) = v.
Proof.
  intros Hv. replace (wrap_signed w (v + d) - d)
    with (wrap_signed w (v + d) + - d) by lia.
  rewrite wrap_signed_plus_l. replace (v + d + - d) with v by lia.
  by apply wrap_signed_id.
Qed.

Lemma wrap_signed_sub_add v d :
  in_signed w v → wrap_signed w (wrap_signed w (v - d) + d) = v.
Proof.
  intros Hv. rewrite wrap_signed_plus_l. replace (v - d + d) with v by lia.
  by apply wrap_signed_id.
Qed.

End wrap.



Lemma bool_of_byte_pred x : bool_of_byte (x - 1) = negb (bool_of_byte x).
Proof.
  unfold bool_of_byte. rewrite !Z.bit0_odd.
  replace (x - 1) with (Z.pred x) by lia.
  by rewrite Z.odd_pred, Z.negb_odd.
Qed.

Lemma bool_of_byte_of_bool b : bool_of_byte (byte_of_bool b) = b.
Proof. by destruct b. Qed.

(** What the boolean arithmetic stores is the byte of [false] or of
    [true]. *)
Lemma wrap_bool_canonical x : wrap_bool x = 0 ∨ wrap_bool x = 1.
Proof.
  unfold wrap_bool, wrap_unsigned, bool_value_bits.
  pose proof (Z.mod_pos_bound x (2 ^ 1)). lia.
Qed.


Lemma wrap_bool_in_range x : in_unsigned bool_bits (wrap_bool x).
Proof.
  unfold in_unsigned, bool_bits. destruct (wrap_bool_canonical x); lia.
Qed.




(* ===================================================================== *)
(** ** The functions on a wrapper of known content                        *)
(* ===================================================================== *)

Section equations.

Variable long_bits : Z.
Implicit Types (h : gmap positive object) (p : positive).

Lemma long_cas_body_eq h p v e d :
  h !! p = Some (c_sd_atomic_long v) →
  c_sd_atomic_long_compare_and_exchange_body h p e d =
    Some (if bool_decide (v = e)
          then (true, <[p := c_sd_atomic_long d]> h, mk_cas_frame e d e)
          else (false, h, mk_cas_frame e d v)).
Proof.
  intros Hp. unfold c_sd_atomic_long_compare_and_exchange_body,
    atomic_compare_exchange_strong. rewrite Hp.
  case_bool_decide; [done|]. by rewrite insert_id.
Qed.

Lemma long_cas_eq h p v e d :
  h !! p = Some (c_sd_atomic_long v) →
  c_sd_atomic_long_compare_and_exchange h p e d =
    Some (if bool_decide (v = e)
          then (true, <[p := c_sd_atomic_long d]> h)
          else (false, h)).
Proof.
  intros Hp. unfold c_sd_atomic_long_compare_and_exchange.
  rewrite (long_cas_body_eq _ _ _ _ _ Hp). by case_bool_decide.
Qed.

Lemma long_add_eq h p v d :
  h !! p = Some (c_sd_atomic_long v) →
  c_sd_atomic_long_add long_bits h p d =
    Some (v, <[p := c_sd_atomic_long (wrap_long long_bits (v + d))]> h).
Proof. intros Hp. unfold c_sd_atomic_long_add. by rewrite Hp. Qed.

Lemma long_sub_eq h p v d :
  h !! p = Some (c_sd_atomic_long v) →
  c_sd_atomic_long_sub long_bits h p d =
    Some (v, <[p := c_sd_atomic_long (wrap_long long_bits (v - d))]> h).
Proof. intros Hp. unfold c_sd_atomic_long_sub. by rewrite Hp. Qed.

Lemma long_load_eq h p v :
  h !! p = Some (c_sd_atomic_long v) → c_sd_atomic_long_load h p = Some v.
Proof. intros Hp. unfold c_sd_atomic_long_load. by rewrite Hp. Qed.

Lemma long_store_eq h p v v' :
  h !! p = Some (c_sd_atomic_long v) →
  c_sd_atomic_long_store h p v' = Some (<[p := c_sd_atomic_long v']> h).
Proof. intros Hp. unfold c_sd_atomic_long_store. by rewrite Hp. Qed.

Lemma bool_cas_body_eq h p x e d :
  h !! p = Some (c_sd_atomic_bool x) →
  c_sd_atomic_bool_compare_and_exchange_body h p e d =
    Some (if bool_decide (x = byte_of_bool e)
          then (true, <[p := c_sd_atomic_bool (byte_of_bool d)]> h,
                mk_cas_frame (byte_of_bool e) (byte_of_bool d) (byte_of_bool e))
          else (false, h,
                mk_cas_frame (byte_of_bool e) (byte_of_bool d) x)).
Proof.
  intros Hp. unfold c_sd_atomic_bool_compare_and_exchange_body,
    atomic_compare_exchange_strong. rewrite Hp.
  case_bool_decide; [done|]. by rewrite insert_id.
Qed.

Lemma bool_cas_eq h p x e d :
  h !! p = Some (c_sd_atomic_bool x) →
  c_sd_atomic_bool_compare_and_exchange h p e d =
    Some (if bool_decide (x = byte_of_bool e)
          then (true, <[p := c_sd_atomic_bool (byte_of_bool d)]> h)
          else (false, h)).
Proof.
  intros Hp. unfold c_sd_atomic_bool_compare_and_exchange.
  rewrite (bool_cas_body_eq _ _ _ _ _ Hp). by case_bool_decide.
Qed.

(** On a byte that is 0 or 1 the comparison is the comparison of the
    booleans. *)
Lemma bool_cas_canonical h p b e d :
  h !! p = Some (c_sd_atomic_bool (byte_of_bool b)) →
  c_sd_atomic_bool_compare_and_exchange h p e d =
    Some (if bool_decide (b = e)
          then (true, <[p := c_sd_atomic_bool (byte_of_bool d)]> h)
          else (false, h)).
Proof.
  intros Hp. rewrite (bool_cas_eq _ _ _ e d Hp).
  destruct b, e; by repeat case_bool_decide.
Qed.



Lemma bool_load_eq h p x :
  h !! p = Some (c_sd_atomic_bool x) →
  c_sd_atomic_bool_load h p = Some (bool_of_byte x).
Proof. intros Hp. unfold c_sd_atomic_bool_load. by rewrite Hp. Qed.

Lemma bool_store_eq h p x b :
  h !! p = Some (c_sd_atomic_bool x) →
  c_sd_atomic_bool_store h p b =
    Some (<[p := c_sd_atomic_bool (byte_of_bool b)]> h).
Proof. intros Hp. unfold c_sd_atomic_bool_store. by rewrite Hp. Qed.

Lemma long_create_eq malloc h v p :
  malloc h = Some p →
  c_sd_atomic_long_create malloc h v = Some (p, <[p := c_sd_atomic_long v]> h).
Proof. intros Hm. unfold c_sd_atomic_long_create. by rewrite Hm. Qed.

Lemma long_create_inv malloc h v p h' :
  c_sd_atomic_long_create malloc h v = Some (p, h') →
  malloc h = Some p ∧ h' = <[p := c_sd_atomic_long v]> h.
Proof.
  unfold c_sd_atomic_long_create. destruct (malloc h); [|done].
  by intros [= -> <-].
Qed.

Lemma bool_create_inv malloc h b p h' :
  c_sd_atomic_bool_create malloc h b = Some (p, h') →
  malloc h = Some p ∧ h' = <[p := c_sd_atomic_bool (byte_of_bool b)]> h.
Proof.
  unfold c_sd_atomic_bool_create. destruct (malloc h); [|done].
  by intros [= -> <-].
Qed.

End equations.

Lemma malloc_fresh_is_fresh (h : gmap positive object) p :
  malloc_fresh h = Some p → h !! p = None.
Proof.
  intros [= <-]. apply not_elem_of_dom. apply is_fresh.
Qed.

(* ===================================================================== *)
(** ** AtomicInteger: compare-and-exchange                                *)
(* ===================================================================== *)

(** C1. On an integer cell holding [v], compare-and-exchange with [v] equal to
    [expected] stores [desired] and returns true; with [v] different from
    [expected] it leaves the heap as it is and returns false. A false result
    is never spurious: it only comes with a content other than [expected]. *)
Theorem c_sd_atomic_long_compare_and_exchange_spec
    (h : gmap positive object) (p : positive) (v expected desired : Z) :
  h !! p = Some (c_sd_atomic_long v) →
  (v = expected →
     c_sd_atomic_long_compare_and_exchange h p expected desired =
       Some (true, <[p := c_sd_atomic_long desired]> h)
     ∧ c_sd_atomic_long_load (<[p := c_sd_atomic_long desired]> h) p
       = Some desired)
  ∧ (v ≠ expected →
     c_sd_atomic_long_compare_and_exchange h p expected desired =
       Some (false, h)
     ∧ c_sd_atomic_long_load h p = Some v)
  ∧ (∀ h', c_sd_atomic_long_compare_and_exchange h p expected desired =
             Some (false, h') → v ≠ expected).
Proof.
  intros Hp. rewrite (long_cas_eq _ _ _ _ _ Hp). split; [|split].
  - intros ->. rewrite bool_decide_eq_true_2 by done. split; [done|].
    apply long_load_eq. apply lookup_insert_eq.
  - intros Hne. rewrite bool_decide_eq_false_2 by done. split; [done|].
    by apply long_load_eq.
  - intros h'. case_bool_decide; [done|]. by intros _.
Qed.

(** The test of the spec: [create(5)]; a first exchange of 5 for 9 succeeds,
    a second exchange of 5 for 1 fails and leaves 9. *)
Lemma c_sd_atomic_long_compare_and_exchange_witness :
  let h := ({[ 1%positive := c_sd_atomic_long 5 ]} : gmap positive object) in
  let h' := <[ 1%positive := c_sd_atomic_long 9 ]> h in
  c_sd_atomic_long_compare_and_exchange h 1 5 9 = Some (true, h')
  ∧ c_sd_atomic_long_compare_and_exchange h' 1 5 1 = Some (false, h')
  ∧ c_sd_atomic_long_load h' 1 = Some 9.
Proof.
  intros h h'.
  assert (H1 : h !! 1%positive = Some (c_sd_atomic_long 5)) by reflexivity.
  assert (H2 : h' !! 1%positive = Some (c_sd_atomic_long 9)) by reflexivity.
  destruct (c_sd_atomic_long_compare_and_exchange_spec h 1 5 5 9 H1)
    as [Hok _].
  destruct (c_sd_atomic_long_compare_and_exchange_spec h' 1 9 5 1 H2)
    as (_ & Hko & _).
  destruct (Hok eq_refl) as [Ha _].
  destruct (Hko ltac:(lia)) as [Hb Hc].
  exact (conj Ha (conj Hb Hc)).
Defined.

(* ===================================================================== *)
(** ** AtomicInteger: fetch-and-add, fetch-and-subtract                   *)
(* ===================================================================== *)

Lemma in_long_small (long_bits x : Z) :
  32 ≤ long_bits → - 2 ^ 31 ≤ x < 2 ^ 31 → in_long long_bits x.
Proof.
  intros Hw Hx. unfold in_long, in_signed.
  assert (2 ^ 31 ≤ 2 ^ (long_bits - 1)) by (apply Z.pow_le_mono_r; lia).
  lia.
Qed.

(** C2. On an integer cell holding [v], [add] with [d] returns [v] and
    leaves the cell holding [v + d] reduced to the width of [long] in two's
    complement: a value of the type, congruent to [v + d] modulo [2^w], and
    [v + d] itself when that fits. The call has a result for every [v] and
    [d]: no overflow error. After [create(10)], [add(cell, 5)] returns 10
    and [load(cell)] then returns 15. *)
Theorem c_sd_atomic_long_add_spec
    (long_bits : Z) (malloc : gmap positive object → option positive)
    (h : gmap positive object) (p : positive) (v d : Z) :
  32 ≤ long_bits →
  h !! p = Some (c_sd_atomic_long v) →
  c_sd_atomic_long_add long_bits h p d =
    Some (v, <[p := c_sd_atomic_long (wrap_long long_bits (v + d))]> h)
  ∧ c_sd_atomic_long_load
      (<[p := c_sd_atomic_long (wrap_long long_bits (v + d))]> h) p
    = Some (wrap_long long_bits (v + d))
  ∧ in_long long_bits (wrap_long long_bits (v + d))
  ∧ (∃ k, wrap_long long_bits (v + d) = v + d + k * 2 ^ long_bits)
  ∧ (in_long long_bits (v + d) → wrap_long long_bits (v + d) = v + d)
  ∧ (∀ h0 q h1,
       c_sd_atomic_long_create malloc h0 10 = Some (q, h1) →
       ∃ h2, c_sd_atomic_long_add long_bits h1 q 5 = Some (10, h2)
             ∧ c_sd_atomic_long_load h2 q = Some 15).
Proof.
  intros Hw Hp. assert (0 < long_bits) by lia.
  split; [by apply long_add_eq|].
  split; [apply long_load_eq, lookup_insert_eq|].
  split; [by apply wrap_signed_in_range|].
  split; [by apply wrap_signed_congr|].
  split; [by apply wrap_signed_id|].
  intros h0 q h1 [_ ->]%long_create_inv.
  eexists. split.
  - apply long_add_eq. apply lookup_insert_eq.
  - unfold wrap_long. rewrite wrap_signed_id.
    + apply long_load_eq. apply lookup_insert_eq.
    + done.
    + apply in_long_small; [done|]. lia.
Qed.

(** With a 64-bit [long] and the allocator [malloc_fresh]: the fetch
    semantics test of the spec, and an increment of [LONG_MAX] that wraps
    to [LONG_MIN]. *)
Lemma c_sd_atomic_long_add_witness :
  c_sd_atomic_long_create malloc_fresh ∅ 10
    = Some (1%positive, {[ 1%positive := c_sd_atomic_long 10 ]})
  ∧ c_sd_atomic_long_add 64 {[ 1%positive := c_sd_atomic_long 10 ]} 1 5
    = Some (10, {[ 1%positive := c_sd_atomic_long 15 ]})
  ∧ c_sd_atomic_long_load {[ 1%positive := c_sd_atomic_long 15 ]} 1 = Some 15
  ∧ c_sd_atomic_long_add 64
      {[ 1%positive := c_sd_atomic_long 9223372036854775807 ]} 1 1
    = Some (9223372036854775807,
            {[ 1%positive := c_sd_atomic_long (-9223372036854775808) ]}).
Proof.
  split; [reflexivity|].
  assert (H1 : ({[ 1%positive := c_sd_atomic_long 10 ]}
                  : gmap positive object) !! 1%positive
               = Some (c_sd_atomic_long 10)) by reflexivity.
  assert (H2 : ({[ 1%positive := c_sd_atomic_long 9223372036854775807 ]}
                  : gmap positive object) !! 1%positive
               = Some (c_sd_atomic_long 9223372036854775807)) by reflexivity.
  destruct (c_sd_atomic_long_add_spec 64 malloc_fresh _ 1 10 5
              ltac:(lia) H1) as (Ha & Hl & _).
  destruct (c_sd_atomic_long_add_spec 64 malloc_fresh _ 1
              9223372036854775807 1 ltac:(lia) H2) as (Hb & _).
  exact (conj Ha (conj Hl Hb)).
Defined.

(** C5. On an integer cell holding [v], [sub] with [d] returns [v] and
    leaves the cell holding [v - d] reduced by the same [wrap_long] as
    [add]: a value of the type, congruent to [v - d] modulo [2^w], and
    [v - d] itself when that fits. The call has a result for every [v] and
    [d]. *)
Theorem c_sd_atomic_long_sub_spec
    (long_bits : Z) (h : gmap positive object) (p : positive) (v d : Z) :
  0 < long_bits →
  h !! p = Some (c_sd_atomic_long v) →
  c_sd_atomic_long_sub long_bits h p d =
    Some (v, <[p := c_sd_atomic_long (wrap_long long_bits (v - d))]> h)
  ∧ c_sd_atomic_long_load
      (<[p := c_sd_atomic_long (wrap_long long_bits (v - d))]> h) p
    = Some (wrap_long long_bits (v - d))
  ∧ in_long long_bits (wrap_long long_bits (v - d))
  ∧ (∃ k, wrap_long long_bits (v - d) = v - d + k * 2 ^ long_bits)
  ∧ (in_long long_bits (v - d) → wrap_long long_bits (v - d) = v - d).
Proof.
  intros Hw Hp.
  split; [by apply long_sub_eq|].
  split; [apply long_load_eq, lookup_insert_eq|].
  split; [by apply wrap_signed_in_range|].
  split; [by apply wrap_signed_congr|].
  by apply wrap_signed_id.
Qed.

(** With a 64-bit [long]: 15 minus 5, and a decrement of [LONG_MIN] that
    wraps to [LONG_MAX]. *)
Lemma c_sd_atomic_long_sub_witness :
  c_sd_atomic_long_sub 64 {[ 1%positive := c_sd_atomic_long 15 ]} 1 5
    = Some (15, {[ 1%positive := c_sd_atomic_long 10 ]})
  ∧ c_sd_atomic_long_sub 64
      ({[ 1%positive := c_sd_atomic_long (-9223372036854775808) ]} : gmap positive object)
      1 1
    = Some (-9223372036854775808,
            {[ 1%positive := c_sd_atomic_long 9223372036854775807 ]}).
Proof.
  assert (H1 : ({[ 1%positive := c_sd_atomic_long 15 ]}
                  : gmap positive object) !! 1%positive
               = Some (c_sd_atomic_long 15)) by reflexivity.
  assert (H2 : ({[ 1%positive := c_sd_atomic_long (-9223372036854775808) ]}
                  : gmap positive object) !! 1%positive
               = Some (c_sd_atomic_long (-9223372036854775808)))
    by reflexivity.
  destruct (c_sd_atomic_long_sub_spec 64 _ 1 15 5 ltac:(lia) H1) as (Ha & _).
  destruct (c_sd_atomic_long_sub_spec 64 _ 1 (-9223372036854775808) 1
              ltac:(lia) H2) as (Hb & _).
  exact (conj Ha Hb).
Defined.

(** C10. On an integer cell holding a [long] value [v], [add] with [d]
    followed by [sub] with [d] returns [v], then [v + d] reduced modulo
    [2^w], and gives back the heap it started from; so does [sub] followed
    by [add], returning [v], then [v - d] reduced. *)
Theorem c_sd_atomic_long_add_sub_inverse
    (long_bits : Z) (h : gmap positive object) (p : positive) (v d : Z) :
  0 < long_bits →
  in_long long_bits v →
  h !! p = Some (c_sd_atomic_long v) →
  (∃ h1, c_sd_atomic_long_add long_bits h p d = Some (v, h1)
         ∧ c_sd_atomic_long_sub long_bits h1 p d
           = Some (wrap_long long_bits (v + d), h)
         ∧ c_sd_atomic_long_load h p = Some v)
  ∧ (∃ h1, c_sd_atomic_long_sub long_bits h p d = Some (v, h1)
           ∧ c_sd_atomic_long_add long_bits h1 p d
             = Some (wrap_long long_bits (v - d), h)).
Proof.
  intros Hw Hv Hp. split.
  - eexists. split; [by apply long_add_eq|]. split; [|by apply long_load_eq].
    erewrite long_sub_eq by apply lookup_insert_eq.
    rewrite insert_insert_eq. unfold wrap_long.
    rewrite wrap_signed_add_sub by done. by rewrite insert_id.
  - eexists. split; [by apply long_sub_eq|].
    erewrite long_add_eq by apply lookup_insert_eq.
    rewrite insert_insert_eq. unfold wrap_long.
    rewrite wrap_signed_sub_add by done. by rewrite insert_id.
Qed.

(** With a 64-bit [long]: from [LONG_MAX], adding 1 and subtracting 1. *)
Lemma c_sd_atomic_long_add_sub_inverse_witness :
  c_sd_atomic_long_add 64
      ({[ 1%positive := c_sd_atomic_long 9223372036854775807 ]} : gmap positive object)
      1 1
    = Some (9223372036854775807,
            {[ 1%positive := c_sd_atomic_long (-9223372036854775808) ]})
  ∧ c_sd_atomic_long_sub 64
      ({[ 1%positive := c_sd_atomic_long (-9223372036854775808) ]} : gmap positive object)
      1 1
    = Some (-9223372036854775808,
            {[ 1%positive := c_sd_atomic_long 9223372036854775807 ]}).
Proof.
  assert (H1 : ({[ 1%positive := c_sd_atomic_long 9223372036854775807 ]}
                  : gmap positive object) !! 1%positive
               = Some (c_sd_atomic_long 9223372036854775807)) by reflexivity.
  destruct (c_sd_atomic_long_add_sub_inverse 64 _ 1 9223372036854775807 1
              ltac:(lia) ltac:(unfold in_long, in_signed; lia) H1)
    as [(h1 & Ha & Hs & _) _].
  assert (Hc : c_sd_atomic_long_add 64
                 {[ 1%positive := c_sd_atomic_long 9223372036854775807 ]} 1 1
               = Some (9223372036854775807,
                       {[ 1%positive :=
                            c_sd_atomic_long (-9223372036854775808) ]}))
    by reflexivity.
  rewrite Hc in Ha. injection Ha as <-.
  exact (conj Hc Hs).
Defined.

(* ===================================================================== *)
(** ** AtomicBoolean: fetch-and-add, fetch-and-subtract                   *)
(* ===================================================================== *)





(* ===================================================================== *)
(** ** Load and store                                                     *)
(* ===================================================================== *)

(** C6. On a cell of either kind, [load] returns the current value, and
    [store] of [v] succeeds whatever the cell held, returns only the new
    heap, in which the cell holds [v], and a [load] right after returns [v]. *)
Theorem c_sd_atomic_store_load
    (h : gmap positive object) (p : positive) (o : object) :
  h !! p = Some o →
  match o with
  | c_sd_atomic_long v0 =>
      c_sd_atomic_long_load h p = Some v0
      ∧ ∀ v, c_sd_atomic_long_store h p v
               = Some (<[p := c_sd_atomic_long v]> h)
             ∧ c_sd_atomic_long_load (<[p := c_sd_atomic_long v]> h) p
               = Some v
  | c_sd_atomic_bool x0 =>
      c_sd_atomic_bool_load h p = Some (bool_of_byte x0)
      ∧ ∀ b, c_sd_atomic_bool_store h p b
               = Some (<[p := c_sd_atomic_bool (byte_of_bool b)]> h)
             ∧ c_sd_atomic_bool_load
                 (<[p := c_sd_atomic_bool (byte_of_bool b)]> h) p
               = Some b
  end.
Proof.
  intros Hp. destruct o as [v0|x0].
  - split; [by apply long_load_eq|]. intros v.
    split; [by eapply long_store_eq|].
    apply long_load_eq, lookup_insert_eq.
  - split; [by apply bool_load_eq|]. intros b.
    split; [by eapply bool_store_eq|].
    erewrite bool_load_eq by apply lookup_insert_eq.
    by rewrite bool_of_byte_of_bool.
Qed.

(** An integer cell holding 7 receives -3; a boolean cell holding [false]
    receives [true]. *)
Lemma c_sd_atomic_store_load_witness :
  (c_sd_atomic_long_load {[ 1%positive := c_sd_atomic_long 7 ]} 1 = Some 7
   ∧ c_sd_atomic_long_store {[ 1%positive := c_sd_atomic_long 7 ]} 1 (-3)
     = Some {[ 1%positive := c_sd_atomic_long (-3) ]}
   ∧ c_sd_atomic_long_load {[ 1%positive := c_sd_atomic_long (-3) ]} 1
     = Some (-3))
  ∧ (c_sd_atomic_bool_load {[ 2%positive := c_sd_atomic_bool 0 ]} 2
     = Some false
     ∧ c_sd_atomic_bool_store {[ 2%positive := c_sd_atomic_bool 0 ]} 2 true
       = Some {[ 2%positive := c_sd_atomic_bool 1 ]}
     ∧ c_sd_atomic_bool_load {[ 2%positive := c_sd_atomic_bool 1 ]} 2
       = Some true).
Proof.
  assert (H1 : ({[ 1%positive := c_sd_atomic_long 7 ]}
                  : gmap positive object) !! 1%positive
               = Some (c_sd_atomic_long 7)) by reflexivity.
  assert (H2 : ({[ 2%positive := c_sd_atomic_bool 0 ]}
                  : gmap positive object) !! 2%positive
               = Some (c_sd_atomic_bool 0)) by reflexivity.
  destruct (c_sd_atomic_store_load _ _ _ H1) as [Hl Hs].
  destruct (c_sd_atomic_store_load _ _ _ H2) as [Hl' Hs'].
  destruct (Hs (-3)) as [Ha Hb]. destruct (Hs' true) as [Ha' Hb'].
  exact (conj (conj Hl (conj Ha Hb)) (conj Hl' (conj Ha' Hb'))).
Defined.

(* ===================================================================== *)
(** ** What compare-and-exchange lets out                                 *)
(* ===================================================================== *)

(** C9. In both compare-and-exchange functions the primitive works on the
    local [expected_copy]: when the call returns, the parameter [expected]
    still holds the argument, and [expected_copy] holds the observed content
    on a failure. The caller receives the [bool] and the heap only: on a
    failure these are [false] and the heap of the call, whatever content
    was observed, so two cells of different contents, both other than
    [expected], give the same result. *)
Theorem c_sd_atomic_compare_and_exchange_hides_observed
    (h : gmap positive object) (p : positive) (o : object) :
  h !! p = Some o →
  match o with
  | c_sd_atomic_long v =>
      ∀ e d,
        (∃ r h' fr,
           c_sd_atomic_long_compare_and_exchange_body h p e d
             = Some (r, h', fr)
           ∧ c_sd_atomic_long_compare_and_exchange h p e d = Some (r, h')
           ∧ local_expected fr = e
           ∧ local_expected_copy fr = v)
        ∧ (v ≠ e →
           c_sd_atomic_long_compare_and_exchange h p e d = Some (false, h)
           ∧ ∀ v', v' ≠ e →
               fst <$> c_sd_atomic_long_compare_and_exchange
                         (<[p := c_sd_atomic_long v']> h) p e d
               = fst <$> c_sd_atomic_long_compare_and_exchange h p e d)
  | c_sd_atomic_bool x =>
      ∀ e d,
        (∃ r h' fr,
           c_sd_atomic_bool_compare_and_exchange_body h p e d
             = Some (r, h', fr)
           ∧ c_sd_atomic_bool_compare_and_exchange h p e d = Some (r, h')
           ∧ local_expected fr = byte_of_bool e
           ∧ local_expected_copy fr = x)
        ∧ (x ≠ byte_of_bool e →
           c_sd_atomic_bool_compare_and_exchange h p e d = Some (false, h)
           ∧ ∀ x', x' ≠ byte_of_bool e →
               fst <$> c_sd_atomic_bool_compare_and_exchange
                         (<[p := c_sd_atomic_bool x']> h) p e d
               = fst <$> c_sd_atomic_bool_compare_and_exchange h p e d)
  end.
Proof.
  intros Hp. destruct o as [v|x]; intros e d.
  - split.
    + rewrite (long_cas_body_eq _ _ _ e d Hp), (long_cas_eq _ _ _ e d Hp).
      case_bool_decide; eexists _, _, _; (split; [done|]); by subst.
    + intros Hne. rewrite (long_cas_eq _ _ _ e d Hp).
      rewrite bool_decide_eq_false_2 by done. split; [done|].
      intros v' Hne'.
      erewrite long_cas_eq by apply lookup_insert_eq.
      by rewrite bool_decide_eq_false_2 by done.
  - split.
    + rewrite (bool_cas_body_eq _ _ _ e d Hp), (bool_cas_eq _ _ _ e d Hp).
      case_bool_decide; eexists _, _, _; (split; [done|]); by subst.
    + intros Hne. rewrite (bool_cas_eq _ _ _ e d Hp).
      rewrite bool_decide_eq_false_2 by done. split; [done|].
      intros x' Hne'.
      erewrite bool_cas_eq by apply lookup_insert_eq.
      by rewrite bool_decide_eq_false_2 by done.
Qed.

(** A cell holding 9 and a cell holding 4, both asked to exchange 5 for 1:
    the caller sees [false] and an unchanged heap in both cases. *)
Lemma c_sd_atomic_compare_and_exchange_hides_observed_witness :
  c_sd_atomic_long_compare_and_exchange
      {[ 1%positive := c_sd_atomic_long 9 ]} 1 5 1
    = Some (false, {[ 1%positive := c_sd_atomic_long 9 ]})
  ∧ fst <$> c_sd_atomic_long_compare_and_exchange
              (<[ 1%positive := c_sd_atomic_long 4 ]>
                 {[ 1%positive := c_sd_atomic_long 9 ]}) 1 5 1
    = fst <$> c_sd_atomic_long_compare_and_exchange
                {[ 1%positive := c_sd_atomic_long 9 ]} 1 5 1.
Proof.
  assert (H1 : ({[ 1%positive := c_sd_atomic_long 9 ]}
                  : gmap positive object) !! 1%positive
               = Some (c_sd_atomic_long 9)) by reflexivity.
  pose proof (c_sd_atomic_compare_and_exchange_hides_observed _ _ _ H1) as Hc.
  destruct (Hc 5 1) as [_ Hf].
  destruct (Hf ltac:(lia)) as [Ha Hb].
  exact (conj Ha (Hb 4 ltac:(lia))).
Defined.

(* ===================================================================== *)
(** ** Independence of distinct cells                                     *)
(* ===================================================================== *)

Section frame.

Variable long_bits : Z.
Implicit Types (h : gmap positive object) (p q : positive).

Local Ltac unfold_calls :=
  unfold run_call,
    c_sd_atomic_long_compare_and_exchange,
    c_sd_atomic_long_compare_and_exchange_body,
    c_sd_atomic_long_add, c_sd_atomic_long_sub,
    c_sd_atomic_long_load, c_sd_atomic_long_store,
    c_sd_atomic_bool_compare_and_exchange,
    c_sd_atomic_bool_compare_and_exchange_body,
    c_sd_atomic_bool_add, c_sd_atomic_bool_sub,
    c_sd_atomic_bool_load, c_sd_atomic_bool_store,
    atomic_compare_exchange_strong, atomic_fetch_add_explicit,
    atomic_fetch_sub_explicit.

(** A call writes at most the wrapper it is given. *)
Lemma run_call_writes h p c r h' :
  run_call long_bits h p c = Some (r, h') →
  ∃ o o', h !! p = Some o ∧ h' = <[p := o']> h.
Proof.
  destruct c; unfold_calls;
    destruct (h !! p) as [[v|x]|] eqn:Hp; try done;
    repeat case_bool_decide; cbn.
  all: intros [= <- <-].
  all: try (by eexists _, _).
  all: eexists _, _; split; [done|]; symmetry; by apply insert_id.
Qed.

Lemma run_call_frame h p c r h' q :
  run_call long_bits h p c = Some (r, h') → q ≠ p → h' !! q = h !! q.
Proof.
  intros (o & o' & _ & ->)%run_call_writes Hq. by rewrite lookup_insert_ne.
Qed.

(** The result of a call and the new content of its wrapper are a function
    of the content of that wrapper alone. *)
Lemma run_call_local h1 h2 p c r h1' :
  h1 !! p = h2 !! p →
  run_call long_bits h1 p c = Some (r, h1') →
  ∃ h2', run_call long_bits h2 p c = Some (r, h2') ∧ h2' !! p = h1' !! p.
Proof.
  intros Heq. destruct c; unfold_calls; rewrite <- Heq;
    destruct (h1 !! p) as [[v|x]|] eqn:Hp; try done;
    repeat case_bool_decide; cbn.
  all: intros [= <- <-].
  all: (eexists; split; [reflexivity|]).
  all: try by rewrite ?lookup_insert_eq.
  all: by rewrite Hp.
Qed.

(** Calls with well-typed arguments keep the heap well formed. *)
Lemma run_call_wf h p c r h' :
  0 < long_bits →
  wf_heap long_bits h → wf_call long_bits c →
  run_call long_bits h p c = Some (r, h') → wf_heap long_bits h'.
Proof.
  intros Hw Hwf Hc. destruct c; unfold_calls;
    destruct (h !! p) as [[v|x]|] eqn:Hp; try done;
    repeat case_bool_decide; cbn.
  all: intros [= <- <-]; try done.
  all: apply map_Forall_insert_2; [|done]; cbn.
  all: try apply (Hwf _ _ Hp).
  all: try (by apply wrap_signed_in_range).
  all: try apply wrap_bool_in_range.
  all: try (by destruct Hc).
  all: unfold atomic_store_explicit, in_unsigned, bool_bits, byte_of_bool.
  all: match goal with |- context [Z.b2z ?b] => destruct b end; cbn; lia.
Qed.

Lemma create_wf malloc h p h' :
  wf_heap long_bits h →
  (∀ v, in_long long_bits v →
        c_sd_atomic_long_create malloc h v = Some (p, h') →
        wf_heap long_bits h')
  ∧ (∀ b, c_sd_atomic_bool_create malloc h b = Some (p, h') →
          wf_heap long_bits h').
Proof.
  intros Hwf. split.
  - intros v Hv [_ ->]%long_create_inv. by apply map_Forall_insert_2.
  - intros b [_ ->]%bool_create_inv. apply map_Forall_insert_2; [|done].
    unfold wf_object, in_unsigned, bool_bits. destruct b; cbn; lia.
Qed.

Lemma run_cons h p c tr :
  run long_bits h ((p, c) :: tr) =
    '(r, h') ← run_call long_bits h p c;
    '(rs, h'') ← run long_bits h' tr;
    Some (r :: rs, h'').
Proof. reflexivity. Qed.

Lemma run_cons_inv h p c tr rs h' :
  run long_bits h ((p, c) :: tr) = Some (rs, h') →
  ∃ r h1 rs1, run_call long_bits h p c = Some (r, h1)
              ∧ run long_bits h1 tr = Some (rs1, h')
              ∧ rs = r :: rs1.
Proof.
  rewrite run_cons.
  destruct (run_call long_bits h p c) as [[r h1]|] eqn:Hc; [|done]. cbn.
  destruct (run long_bits h1 tr) as [[rs1 h2]|] eqn:Hr; [|done]. cbn.
  intros Heq. simplify_eq. by eexists _, _, _.
Qed.

Lemma calls_on_cons q p c tr :
  calls_on q ((p, c) :: tr) =
    if decide (p = q) then (p, c) :: calls_on q tr else calls_on q tr.
Proof. unfold calls_on. by rewrite filter_cons. Qed.

Lemma run_frame tr : ∀ h rs h' q,
  run long_bits h tr = Some (rs, h') →
  q ∉ tr.*1 → h' !! q = h !! q.
Proof.
  induction tr as [|[p c] tr IH]; intros h rs h' q.
  - cbn. by intros [= _ <-].
  - intros (r & h1 & rs1 & Hc & Hr & _)%run_cons_inv Hq.
    apply not_elem_of_cons in Hq as [Hne Hq].
    rewrite (IH _ _ _ _ Hr Hq). by eapply run_call_frame.
Qed.

(** Running a sequence and running only its calls on [q] from heaps that
    agree on [q] end in heaps that agree on [q]. *)
Lemma run_calls_on tr : ∀ h1 h2 rs h1' q,
  h1 !! q = h2 !! q →
  run long_bits h1 tr = Some (rs, h1') →
  ∃ rs' h2', run long_bits h2 (calls_on q tr) = Some (rs', h2')
             ∧ h2' !! q = h1' !! q.
Proof.
  induction tr as [|[p c] tr IH]; intros h1 h2 rs h1' q Heq.
  - cbn. intros [= _ <-]. by eexists _, _.
  - intros (r & h1a & rs1 & Hc & Hr & _)%run_cons_inv.
    rewrite calls_on_cons. case_decide as Hpq.
    + subst p.
      destruct (run_call_local _ _ _ _ _ _ Heq Hc) as (h2a & Hc2 & Heq2).
      destruct (IH h1a h2a _ _ q (eq_sym Heq2) Hr) as (rs' & h2b & Hr2 & ?).
      exists (r :: rs'), h2b. split; [|done].
      rewrite run_cons, Hc2. cbn. by rewrite Hr2.
    + apply (IH h1a h2 rs1 h1' q); [|done].
      rewrite <- Heq. by eapply run_call_frame.
Qed.

End frame.

(** C8. With an allocator that returns addresses no wrapper of the heap
    has: a call on a wrapper leaves every other wrapper as it was; after a
    sequence of calls the content of a wrapper is what the calls on that
    wrapper alone make of it; and either [create] returns an address that
    was free, holding the initial value, and leaves every existing wrapper
    as it was; it does return one whenever the allocator does. *)
Theorem c_sd_atomic_cells_independent
    (long_bits : Z) (malloc : gmap positive object → option positive) :
  (∀ h p, malloc h = Some p → h !! p = None) →
  (∀ (h : gmap positive object) a c r h' b,
     run_call long_bits h a c = Some (r, h') → b ≠ a → h' !! b = h !! b)
  ∧ (∀ (h : gmap positive object) tr rs h' b,
       run long_bits h tr = Some (rs, h') →
       ∃ rs' h'', run long_bits h (calls_on b tr) = Some (rs', h'')
                  ∧ h'' !! b = h' !! b)
  ∧ (∀ (h : gmap positive object) v p h',
       c_sd_atomic_long_create malloc h v = Some (p, h') →
       h !! p = None ∧ h' !! p = Some (c_sd_atomic_long v)
       ∧ ∀ b, is_Some (h !! b) → b ≠ p ∧ h' !! b = h !! b)
  ∧ (∀ (h : gmap positive object) v p h',
       c_sd_atomic_bool_create malloc h v = Some (p, h') →
       h !! p = None ∧ h' !! p = Some (c_sd_atomic_bool (byte_of_bool v))
       ∧ ∀ b, is_Some (h !! b) → b ≠ p ∧ h' !! b = h !! b)
  ∧ (∀ (h : gmap positive object) p,
       malloc h = Some p →
       (∀ v, is_Some (c_sd_atomic_long_create malloc h v))
       ∧ (∀ v, is_Some (c_sd_atomic_bool_create malloc h v))).
Proof.
  intros Hfresh. split; [|split; [|split; [|split]]].
  - intros h a c r h' b Hc Hb. by eapply run_call_frame.
  - intros h tr rs h' b Hr. by eapply run_calls_on.
  - intros h v p h' [Hm ->]%long_create_inv. apply Hfresh in Hm.
    split; [done|]. split; [apply lookup_insert_eq|].
    intros b [o Hb].
    assert (b ≠ p) by congruence. split; [done|]. by apply lookup_insert_ne.
  - intros h v p h' [Hm ->]%bool_create_inv. apply Hfresh in Hm.
    split; [done|]. split; [apply lookup_insert_eq|].
    intros b [o Hb].
    assert (b ≠ p) by congruence. split; [done|]. by apply lookup_insert_ne.
  - intros h p Hm. unfold c_sd_atomic_long_create, c_sd_atomic_bool_create.
    rewrite Hm. by split.
Qed.

(** With [malloc_fresh] and a 64-bit [long]: an integer cell at address 1
    and a boolean cell at address 2, four calls interleaved on the two; the
    two calls on the integer cell alone leave it holding the same 13. *)
Lemma c_sd_atomic_cells_independent_witness :
  (∀ (h : gmap positive object) p, malloc_fresh h = Some p → h !! p = None)
  ∧ c_sd_atomic_bool_create malloc_fresh
      {[ 1%positive := c_sd_atomic_long 10 ]} false
    = Some (2%positive,
            {[ 1%positive := c_sd_atomic_long 10;
               2%positive := c_sd_atomic_bool 0 ]})
  ∧ (snd <$> run 64 {[ 1%positive := c_sd_atomic_long 10;
                       2%positive := c_sd_atomic_bool 0 ]}
                 [ (1%positive, long_add 5); (2%positive, bool_store true);
                   (1%positive, long_sub 2); (2%positive, bool_add true) ])
    = Some {[ 1%positive := c_sd_atomic_long 13;
              2%positive := c_sd_atomic_bool 0 ]}
  ∧ ∃ rs' h'',
      run 64 {[ 1%positive := c_sd_atomic_long 10;
                2%positive := c_sd_atomic_bool 0 ]}
          (calls_on 1
             [ (1%positive, long_add 5); (2%positive, bool_store true);
               (1%positive, long_sub 2); (2%positive, bool_add true) ])
        = Some (rs', h'')
      ∧ h'' !! 1%positive = Some (c_sd_atomic_long 13).
Proof.
  split; [exact malloc_fresh_is_fresh|].
  split; [reflexivity|]. split; [reflexivity|].
  destruct (c_sd_atomic_cells_independent 64 malloc_fresh
              malloc_fresh_is_fresh) as (_ & Hproj & _).
  assert (Hrun :
    run 64 ({[ 1%positive := c_sd_atomic_long 10;
               2%positive := c_sd_atomic_bool 0 ]} : gmap positive object)
        [ (1%positive, long_add 5); (2%positive, bool_store true);
          (1%positive, long_sub 2); (2%positive, bool_add true) ]
    = Some ([ret_long 10; ret_void; ret_long 15; ret_bool true],
            {[ 1%positive := c_sd_atomic_long 13;
               2%positive := c_sd_atomic_bool 0 ]})) by reflexivity.
  destruct (Hproj _ _ _ _ 1%positive Hrun) as (rs' & h'' & Hr & Hl).
  exists rs', h''. split; [exact Hr|]. rewrite Hl. reflexivity.
Defined.

(* ===================================================================== *)
(** ** Threads incrementing one cell: no lost update                      *)
(* ===================================================================== *)

Section threads.

Variable long_bits : Z.
Hypothesis long_bits_pos : 0 < long_bits.
Variable wrapper : positive.
Implicit Types (h : gmap positive object) (ts : list N).

Lemma pending_cons n ts : pending (n :: ts) = Z.of_N n + pending ts.
Proof. reflexivity. Qed.

Lemma pending_nonneg ts : 0 ≤ pending ts.
Proof.
  induction ts as [|n ts IH]; [done|]. rewrite pending_cons. lia.
Qed.

Lemma pending_replicate k n :
  pending (replicate k n) = Z.of_nat k * Z.of_N n.
Proof.
  induction k as [|k IH]; [done|].
  cbn [replicate]. rewrite pending_cons, IH. lia.
Qed.

Lemma pending_insert ts : ∀ i n,
  ts !! i = Some (N.succ n) → pending (<[i := n]> ts) = pending ts - 1.
Proof.
  induction ts as [|m ts IH]; intros [|i] n; try done.
  - intros [= ->]. change (<[0%nat := n]> (N.succ n :: ts)) with (n :: ts).
    rewrite !pending_cons. lia.
  - intros Hi. change (<[S i := n]> (m :: ts)) with (m :: <[i := n]> ts).
    rewrite !pending_cons, (IH _ _ Hi). lia.
Qed.

(** One step: the cell goes from [v] to [v + 1] reduced, and one call
    fewer is pending. *)
Lemma step_inv h ts h' ts' v :
  step long_bits wrapper (h, ts) (h', ts') →
  h !! wrapper = Some (c_sd_atomic_long v) →
  h' !! wrapper = Some (c_sd_atomic_long (wrap_long long_bits (v + 1)))
  ∧ pending ts' = pending ts - 1.
Proof.
  intros Hstep Hw. inversion Hstep as [? ? ? i n r Hi Hadd]; subst.
  rewrite (long_add_eq _ _ _ _ _ Hw) in Hadd. injection Hadd as <- <-.
  split; [apply lookup_insert_eq|]. by apply pending_insert.
Qed.

(** Along any interleaving, content plus pending calls is constant modulo
    the width of [long]. *)
Lemma pool_invariant c c' :
  rtc (step long_bits wrapper) c c' →
  ∀ v, c.1 !! wrapper = Some (c_sd_atomic_long v) →
  ∃ v', c'.1 !! wrapper = Some (c_sd_atomic_long v')
        ∧ wrap_long long_bits (v' + pending c'.2)
          = wrap_long long_bits (v + pending c.2)
        ∧ (in_long long_bits v → in_long long_bits v').
Proof.
  induction 1 as [c|[h ts] [h1 ts1] c' Hstep _ IH]; intros v Hv.
  - by exists v.
  - cbn in Hv. destruct (step_inv _ _ _ _ _ Hstep Hv) as [Hv1 Hp1].
    destruct (IH _ Hv1) as (v' & Hv' & Hinv & Hrange).
    exists v'. split; [done|]. cbn [fst snd] in *. split.
    + rewrite Hinv, Hp1. unfold wrap_long.
      rewrite wrap_signed_plus_l by done. f_equal. lia.
    + intros _. apply Hrange. by apply wrap_signed_in_range.
Qed.

(** When every thread is done the cell holds the number of calls, reduced
    to the width of [long]. *)
Lemma pool_final h ts h' :
  h !! wrapper = Some (c_sd_atomic_long 0) →
  rtc (step long_bits wrapper) (h, ts) (h', replicate (length ts) 0%N) →
  c_sd_atomic_long_load h' wrapper
    = Some (wrap_long long_bits (pending ts)).
Proof.
  intros Hw Hrtc.
  destruct (pool_invariant _ _ Hrtc 0 Hw) as (v' & Hv' & Hinv & Hrange).
  cbn [fst snd] in *. rewrite pending_replicate in Hinv.
  rewrite (long_load_eq _ _ _ Hv'). f_equal.
  replace (0 + pending ts) with (pending ts) in Hinv by lia.
  rewrite <- Hinv. replace (v' + _) with v' by lia.
  symmetry. apply wrap_signed_id; [done|].
  apply Hrange. unfold in_long, in_signed.
  pose proof (pow2_half_pos _ long_bits_pos). lia.
Qed.

(** Steps of a pool are steps of the pool with one more thread in front. *)
Lemma rtc_step_cons n h ts h' ts' :
  rtc (step long_bits wrapper) (h, ts) (h', ts') →
  rtc (step long_bits wrapper) (h, n :: ts) (h', n :: ts').
Proof.
  intros Hrtc. remember (h, ts) as c eqn:Hc. remember (h', ts') as c' eqn:Hc'.
  revert h ts Hc. induction Hrtc as [c|c [h1 ts1] c' Hstep _ IH];
    intros h ts ->.
  - injection Hc' as -> ->. done.
  - inversion Hstep as [? ? ? i m r Hi Hadd]; subst.
    eapply rtc_l; [|by apply IH].
    by apply (step_add _ _ _ _ (n :: ts) (S i) m r).
Qed.

(** The first thread can run all its calls in a row. *)
Lemma first_thread_runs n : ∀ h ts v,
  h !! wrapper = Some (c_sd_atomic_long v) →
  ∃ h' v', rtc (step long_bits wrapper) (h, n :: ts) (h', 0%N :: ts)
           ∧ h' !! wrapper = Some (c_sd_atomic_long v').
Proof.
  induction n as [|n IH] using N.peano_ind; intros h ts v Hv.
  - by exists h, v.
  - destruct (IH (<[wrapper :=
                     c_sd_atomic_long (wrap_long long_bits (v + 1))]> h)
                ts _ (lookup_insert_eq _ _ _)) as (h' & v' & Hrtc & Hv').
    exists h', v'. split; [|done]. eapply rtc_l; [|exact Hrtc].
    apply (step_add _ _ _ _ (N.succ n :: ts) 0%nat n v); [done|].
    by apply long_add_eq.
Qed.

(** Some interleaving runs every thread to its end: the calls never get
    stuck. *)
Lemma pool_terminates ts : ∀ h v,
  h !! wrapper = Some (c_sd_atomic_long v) →
  ∃ h' v', rtc (step long_bits wrapper) (h, ts)
               (h', replicate (length ts) 0%N)
           ∧ h' !! wrapper = Some (c_sd_atomic_long v').
Proof.
  induction ts as [|n ts IH]; intros h v Hv.
  - by exists h, v.
  - destruct (first_thread_runs n h ts v Hv) as (h1 & v1 & Hrtc1 & Hv1).
    destruct (IH h1 v1 Hv1) as (h2 & v2 & Hrtc2 & Hv2).
    exists h2, v2. split; [|done].
    etrans; [exact Hrtc1|]. by apply rtc_step_cons.
Qed.

End threads.

(** The claim C7 as stated does not hold. With a 32-bit [long], two
    threads that each call [add(cell, 1)] 2^30 times on a cell created with
    0 can all run to their end, and the cell then holds -2^31, not the
    2^31 calls that were made. *)
Lemma c_sd_atomic_long_add_count_wraps :
  ∃ h',
    rtc (step 32 1)
        ({[ 1%positive := c_sd_atomic_long 0 ]}, replicate 2 1073741824%N)
        (h', replicate 2 0%N)
    ∧ c_sd_atomic_long_load h' 1 = Some (-2147483648)
    ∧ -2147483648 ≠ Z.of_nat 2 * Z.of_N 1073741824.
Proof.
  assert (H0 : ({[ 1%positive := c_sd_atomic_long 0 ]}
                  : gmap positive object) !! 1%positive
               = Some (c_sd_atomic_long 0)) by reflexivity.
  destruct (pool_terminates 32 1 (replicate 2 1073741824%N) _ 0 H0)
    as (h' & v' & Hrtc & _).
  exists h'. split; [exact Hrtc|]. split; [|done].
  by rewrite (pool_final 32 ltac:(lia) 1 _ _ _ H0 Hrtc).
Qed.

(** C7, amended. Each call being one step of the pool, [n] threads that
    each call [add(cell, 1)] [M] times on a cell created with 0 can always
    all run to their end, and however their calls interleave, the cell then
    holds [n * M] reduced to the width of [long]: exactly [n * M] whenever
    that is a value of the type. *)
Theorem c_sd_atomic_long_add_no_lost_update
    (long_bits : Z) (wrapper : positive) (h : gmap positive object)
    (n : nat) (M : N) :
  0 < long_bits →
  h !! wrapper = Some (c_sd_atomic_long 0) →
  (∃ h', rtc (step long_bits wrapper)
             (h, replicate n M) (h', replicate n 0%N))
  ∧ (∀ h', rtc (step long_bits wrapper)
               (h, replicate n M) (h', replicate n 0%N) →
           c_sd_atomic_long_load h' wrapper
             = Some (wrap_long long_bits (Z.of_nat n * Z.of_N M))
           ∧ (in_long long_bits (Z.of_nat n * Z.of_N M) →
              c_sd_atomic_long_load h' wrapper
                = Some (Z.of_nat n * Z.of_N M))).
Proof.
  intros Hw Hp. split.
  - destruct (pool_terminates long_bits wrapper (replicate n M) h 0 Hp)
      as (h' & v' & Hrtc & _).
    rewrite length_replicate in Hrtc. by exists h'.
  - intros h' Hrtc.
    assert (Hload : c_sd_atomic_long_load h' wrapper
                    = Some (wrap_long long_bits (Z.of_nat n * Z.of_N M))).
    { rewrite <- pending_replicate.
      apply (pool_final long_bits Hw wrapper h); [done|].
      by rewrite length_replicate. }
    split; [done|]. intros Hfit. rewrite Hload. f_equal.
    by apply wrap_signed_id.
Qed.

(** The contention test of the spec with a 64-bit [long]: 8 threads of
    10000 calls end, in every interleaving, with 80000 in the cell. *)
Lemma c_sd_atomic_long_add_no_lost_update_witness :
  (∃ h', rtc (step 64 1)
             ({[ 1%positive := c_sd_atomic_long 0 ]}, replicate 8 10000%N)
             (h', replicate 8 0%N))
  ∧ (∀ h', rtc (step 64 1)
               ({[ 1%positive := c_sd_atomic_long 0 ]}, replicate 8 10000%N)
               (h', replicate 8 0%N) →
           c_sd_atomic_long_load h' 1 = Some 80000).
Proof.
  assert (H0 : ({[ 1%positive := c_sd_atomic_long 0 ]}
                  : gmap positive object) !! 1%positive
               = Some (c_sd_atomic_long 0)) by reflexivity.
  destruct (c_sd_atomic_long_add_no_lost_update 64 1 _ 8 10000%N
              ltac:(lia) H0) as [Hex Hall].
  split; [exact Hex|]. intros h' Hrtc.
  destruct (Hall h' Hrtc) as [_ Hfit]. apply Hfit.
  unfold in_long, in_signed. lia.
Defined.


(* ===================================================================== *)
(** ** Further properties of the calls                                    *)
(* ===================================================================== *)

Section calls.

Variable long_bits : Z.
Implicit Types (h : gmap positive object) (p q : positive).

Local Ltac unfold_functions :=
  unfold run_call,
    c_sd_atomic_long_compare_and_exchange,
    c_sd_atomic_long_compare_and_exchange_body,
    c_sd_atomic_long_add, c_sd_atomic_long_sub,
    c_sd_atomic_long_load, c_sd_atomic_long_store,
    c_sd_atomic_bool_compare_and_exchange,
    c_sd_atomic_bool_compare_and_exchange_body,
    c_sd_atomic_bool_add, c_sd_atomic_bool_sub,
    c_sd_atomic_bool_load, c_sd_atomic_bool_store,
    atomic_compare_exchange_strong, atomic_fetch_add_explicit,
    atomic_fetch_sub_explicit, atomic_store_explicit, atomic_load_explicit.

(** A call reads and writes the member of its wrapper and nothing else:
    the wrapper keeps its kind, and on any heap where the wrapper has the
    same content the call returns the same and writes the same. *)
Lemma run_call_shape h p c r h' :
  run_call long_bits h p c = Some (r, h') →
  ∃ o o', h !! p = Some o ∧ h' = <[p := o']> h ∧ is_long o' = is_long o
          ∧ ∀ h2, h2 !! p = Some o →
                  run_call long_bits h2 p c = Some (r, <[p := o']> h2).
Proof.
  destruct c; unfold_functions;
    destruct (h !! p) as [[v|x]|] eqn:Hp; try done;
    repeat case_bool_decide; cbn.
  all: intros [= <- <-].
  all: eexists _, _; split; [done|].
  all: try (split; [done|]; split; [done|];
            intros h2 ->; cbn;
            by rewrite ?bool_decide_eq_true_2, ?bool_decide_eq_false_2 by done).
  all: split; [symmetry; by apply insert_id|]; split; [done|].
  all: intros h2 Hp2; rewrite Hp2; cbn; by rewrite insert_id.
Qed.

Lemma run_call_kind h p c r h' q :
  run_call long_bits h p c = Some (r, h') →
  is_long <$> h' !! q = is_long <$> h !! q.
Proof.
  intros (o & o' & Hp & -> & Hk & _)%run_call_shape.
  destruct (decide (q = p)) as [->|Hne].
  - rewrite lookup_insert_eq, Hp. cbn. by rewrite Hk.
  - by rewrite lookup_insert_ne.
Qed.

Lemma run_kind tr : ∀ h rs h' q,
  run long_bits h tr = Some (rs, h') →
  is_long <$> h' !! q = is_long <$> h !! q.
Proof.
  induction tr as [|[p c] tr IH]; intros h rs h' q.
  - cbn. by intros [= _ <-].
  - intros (r & h1 & rs1 & Hc & Hr & _)%run_cons_inv.
    rewrite (IH _ _ _ q Hr). by eapply run_call_kind.
Qed.

Lemma run_call_commute h p c1 r1 h1 q c2 r2 h2 :
  p ≠ q →
  run_call long_bits h p c1 = Some (r1, h1) →
  run_call long_bits h1 q c2 = Some (r2, h2) →
  ∃ h1', run_call long_bits h q c2 = Some (r2, h1')
         ∧ run_call long_bits h1' p c1 = Some (r1, h2).
Proof.
  intros Hne (o1 & o1' & Hp & -> & _ & F1)%run_call_shape
             (o2 & o2' & Hq & -> & _ & F2)%run_call_shape.
  rewrite lookup_insert_ne in Hq by done.
  exists (<[q := o2']> h). split; [by apply F2|].
  rewrite (insert_insert_ne _ q p) by done.
  apply F1. by rewrite lookup_insert_ne.
Qed.

(** The value a call returns from a well-formed heap is well formed. *)
Lemma run_call_result_wf h p c r h' :
  wf_heap long_bits h →
  run_call long_bits h p c = Some (r, h') → wf_result long_bits r.
Proof.
  intros Hwf. destruct c; unfold_functions;
    destruct (h !! p) as [[v|x]|] eqn:Hp; try done;
    repeat case_bool_decide; cbn.
  all: intros [= <- <-]; try done.
  all: apply (Hwf _ _ Hp).
Qed.

Lemma run_wf tr : ∀ h rs h',
  0 < long_bits →
  wf_heap long_bits h →
  Forall (λ pc, wf_call long_bits pc.2) tr →
  run long_bits h tr = Some (rs, h') →
  wf_heap long_bits h' ∧ Forall (wf_result long_bits) rs.
Proof.
  induction tr as [|[p c] tr IH]; intros h rs h' Hw Hwf Hargs.
  - cbn. intros Heq. simplify_eq. by split.
  - intros (r & h1 & rs1 & Hc & Hr & ->)%run_cons_inv.
    apply Forall_cons in Hargs as [Hc1 Hargs].
    assert (wf_heap long_bits h1) as Hwf1 by by eapply run_call_wf.
    destruct (IH _ _ _ Hw Hwf1 Hargs Hr) as [? ?].
    split; [done|]. apply Forall_cons. split; [|done].
    exact (run_call_result_wf _ _ _ _ _ Hwf Hc).
Qed.

Lemma run_call_canonical h p c r h' :
  canonical_heap h → no_bool_arith c →
  run_call long_bits h p c = Some (r, h') → canonical_heap h'.
Proof.
  intros Hcan Hc. destruct c; try done; unfold_functions;
    destruct (h !! p) as [[v|x]|] eqn:Hp; try done;
    repeat case_bool_decide; cbn.
  all: intros [= <- <-]; try done.
  all: apply map_Forall_insert_2; [|done]; cbn; try done.
  all: try apply (Hcan _ _ Hp).
  all: unfold byte_of_bool;
       match goal with |- context [Z.b2z ?b] => destruct b end; cbn; lia.
Qed.

Lemma run_canonical tr : ∀ h rs h',
  canonical_heap h →
  Forall (λ pc, no_bool_arith pc.2) tr →
  run long_bits h tr = Some (rs, h') → canonical_heap h'.
Proof.
  induction tr as [|[p c] tr IH]; intros h rs h' Hcan Hcalls.
  - cbn. by intros [= _ <-].
  - intros (r & h1 & rs1 & Hc & Hr & _)%run_cons_inv.
    apply Forall_cons in Hcalls as [Hc1 Hcalls].
    eapply IH; [|done|done]. by eapply run_call_canonical.
Qed.

(** The boolean [add] and [sub] store the byte of [false] or of [true] as
    well, so that boolean cells holding 0 or 1 keep doing so under every
    call. *)
Lemma run_call_canonical_all h p c r h' :
  canonical_heap h →
  run_call long_bits h p c = Some (r, h') → canonical_heap h'.
Proof.
  intros Hcan. destruct c; try (by apply run_call_canonical).
  all: unfold_functions;
    destruct (h !! p) as [[v|x]|] eqn:Hp; try done; cbn.
  all: intros [= <- <-].
  all: apply map_Forall_insert_2; [|done]; apply wrap_bool_canonical.
Qed.

End calls.

Lemma wrap_signed_plus_r (w a c : Z) :
  0 < w → wrap_signed w (a + wrap_signed w c) = wrap_signed w (a + c).
Proof.
  intros Hw. rewrite (Z.add_comm a), wrap_signed_plus_l by done.
  f_equal. lia.
Qed.

(** X1. Along any sequence of calls whose [long] arguments are values of
    the type, a heap in which every integer cell holds a [long] value and
    every boolean cell one byte stays so, every [long] the calls return is
    a value of the type, and a [create] on the heap reached keeps it so. *)
Theorem calls_keep_values_in_range
    (long_bits : Z) (malloc : gmap positive object → option positive)
    (h : gmap positive object) (tr : list (positive * call))
    (rs : list result) (h' : gmap positive object) :
  0 < long_bits →
  wf_heap long_bits h →
  Forall (λ pc, wf_call long_bits pc.2) tr →
  run long_bits h tr = Some (rs, h') →
  wf_heap long_bits h'
  ∧ Forall (wf_result long_bits) rs
  ∧ (∀ v p h'', in_long long_bits v →
       c_sd_atomic_long_create malloc h' v = Some (p, h'') →
       wf_heap long_bits h'')
  ∧ (∀ b p h'',
       c_sd_atomic_bool_create malloc h' b = Some (p, h'') →
       wf_heap long_bits h'').
Proof.
  intros Hw Hwf Hargs Hrun.
  destruct (run_wf long_bits tr h rs h' Hw Hwf Hargs Hrun) as [Hwf' Hrs].
  split; [done|]. split; [done|]. split.
  - intros v p h'' Hv Hc.
    by apply (proj1 (create_wf long_bits malloc h' p h'' Hwf') v).
  - intros b p h'' Hc.
    by apply (proj2 (create_wf long_bits malloc h' p h'' Hwf') b).
Qed.

(** With a 64-bit [long]: an increment of [LONG_MAX] and a decrement of
    boolean cell holding [false] both stay in range. *)
Lemma calls_keep_values_in_range_witness :
  wf_heap 64 {[ 1%positive := c_sd_atomic_long (-9223372036854775808);
                2%positive := c_sd_atomic_bool 1 ]}
  ∧ Forall (wf_result 64)
      [ret_long 9223372036854775807; ret_bool false;
       ret_long (-9223372036854775808)].
Proof.
  assert (Hwf : wf_heap 64
            ({[ 1%positive := c_sd_atomic_long 9223372036854775807;
                2%positive := c_sd_atomic_bool 0 ]}
               : gmap positive object)).
  { apply map_Forall_insert_2; [cbn; unfold in_long, in_signed; lia|].
    apply map_Forall_singleton. cbn. unfold in_unsigned, bool_bits. lia. }
  assert (Hargs : Forall (λ pc : positive * call, wf_call 64 pc.2)
            [ (1%positive, long_add 1); (2%positive, bool_sub true);
              (1%positive, long_load) ]).
  { repeat constructor. cbn. unfold in_long, in_signed. lia. }
  assert (Hrun :
    run 64 ({[ 1%positive := c_sd_atomic_long 9223372036854775807;
               2%positive := c_sd_atomic_bool 0 ]} : gmap positive object)
        [ (1%positive, long_add 1); (2%positive, bool_sub true);
          (1%positive, long_load) ]
    = Some ([ret_long 9223372036854775807; ret_bool false;
             ret_long (-9223372036854775808)],
            {[ 1%positive := c_sd_atomic_long (-9223372036854775808);
               2%positive := c_sd_atomic_bool 1 ]})) by reflexivity.
  destruct (calls_keep_values_in_range 64 malloc_fresh _ _ _ _
              ltac:(lia) Hwf Hargs Hrun) as (H1 & H2 & _).
  exact (conj H1 H2).
Defined.

(** X2. No sequence of calls allocates, frees or retypes a wrapper: after
    it the heap has the same addresses, and each holds a cell of the kind it
    held before. *)
Theorem calls_keep_wrappers
    (long_bits : Z) (h : gmap positive object) (tr : list (positive * call))
    (rs : list result) (h' : gmap positive object) :
  run long_bits h tr = Some (rs, h') →
  dom h' = dom h
  ∧ ∀ q, is_long <$> h' !! q = is_long <$> h !! q.
Proof.
  intros Hrun.
  assert (Hk : ∀ q, is_long <$> h' !! q = is_long <$> h !! q)
    by (intros q; by eapply run_kind).
  split; [|done]. apply set_eq. intros q. rewrite !elem_of_dom.
  specialize (Hk q). destruct (h' !! q), (h !! q); cbn in Hk;
    try discriminate Hk; split; intros [? ?]; by eauto.
Qed.

(** A store and a compare-and-exchange on a boolean cell next to an
    integer cell. *)
Lemma calls_keep_wrappers_witness :
  dom ({[ 1%positive := c_sd_atomic_long 3;
          2%positive := c_sd_atomic_bool 0 ]} : gmap positive object)
  = dom ({[ 1%positive := c_sd_atomic_long 10;
            2%positive := c_sd_atomic_bool 1 ]} : gmap positive object).
Proof.
  assert (Hrun :
    run 64 ({[ 1%positive := c_sd_atomic_long 10;
               2%positive := c_sd_atomic_bool 1 ]} : gmap positive object)
        [ (2%positive, bool_store false); (1%positive, long_sub 7) ]
    = Some ([ret_void; ret_long 10],
            {[ 1%positive := c_sd_atomic_long 3;
               2%positive := c_sd_atomic_bool 0 ]})) by reflexivity.
  exact (proj1 (calls_keep_wrappers 64 _ _ _ _ Hrun)).
Defined.

(** X3. On an integer cell, two [add] calls in a row leave the heap that
    one [add] of the reduced sum of the two deltas leaves, the second
    returning what the first stored; and [sub] of [d] returns and stores
    exactly what [add] of the reduced negation of [d] does, also for the
    least [long], whose negation reduces to itself. *)
Theorem c_sd_atomic_long_add_composes
    (long_bits : Z) (h : gmap positive object) (p : positive) (v d1 d2 : Z) :
  0 < long_bits →
  h !! p = Some (c_sd_atomic_long v) →
  (∃ h1,
     c_sd_atomic_long_add long_bits h p d1 = Some (v, h1)
     ∧ c_sd_atomic_long_add long_bits h1 p d2
       = Some (wrap_long long_bits (v + d1),
               <[p := c_sd_atomic_long (wrap_long long_bits (v + (d1 + d2)))]> h)
     ∧ snd <$> c_sd_atomic_long_add long_bits h p
                 (wrap_long long_bits (d1 + d2))
       = Some (<[p := c_sd_atomic_long
                         (wrap_long long_bits (v + (d1 + d2)))]> h))
  ∧ c_sd_atomic_long_sub long_bits h p d1
    = c_sd_atomic_long_add long_bits h p (wrap_long long_bits (- d1)).
Proof.
  intros Hw Hp. split.
  - eexists. split; [by apply long_add_eq|]. split.
    + erewrite long_add_eq by apply lookup_insert_eq.
      rewrite insert_insert_eq. unfold wrap_long.
      rewrite wrap_signed_plus_l by done.
      by replace (v + d1 + d2) with (v + (d1 + d2)) by lia.
    + rewrite (long_add_eq _ _ _ _ _ Hp). cbn. unfold wrap_long.
      by rewrite wrap_signed_plus_r.
  - rewrite (long_add_eq _ _ _ _ _ Hp), (long_sub_eq _ _ _ _ _ Hp).
    unfold wrap_long. rewrite wrap_signed_plus_r by done.
    by replace (v + - d1) with (v - d1) by lia.
Qed.

(** With a 64-bit [long], from [LONG_MAX]: adding 1 then -1, and
    subtracting [LONG_MIN]. *)
Lemma c_sd_atomic_long_add_composes_witness :
  c_sd_atomic_long_sub 64
      {[ 1%positive := c_sd_atomic_long 9223372036854775807 ]} 1
      (-9223372036854775808)
  = c_sd_atomic_long_add 64
      {[ 1%positive := c_sd_atomic_long 9223372036854775807 ]} 1
      (-9223372036854775808).
Proof.
  assert (H1 : ({[ 1%positive := c_sd_atomic_long 9223372036854775807 ]}
                  : gmap positive object) !! 1%positive
               = Some (c_sd_atomic_long 9223372036854775807)) by reflexivity.
  destruct (c_sd_atomic_long_add_composes 64 _ 1 9223372036854775807
              (-9223372036854775808) 0 ltac:(lia) H1) as [_ Hs].
  exact Hs.
Defined.

(** X4. Two calls on distinct wrappers commute: made in the other order
    they return the same two values and leave the same heap. *)
Theorem calls_on_distinct_wrappers_commute
    (long_bits : Z) (h : gmap positive object)
    (p q : positive) (c1 c2 : call) (r1 r2 : result)
    (h' : gmap positive object) :
  p ≠ q →
  run long_bits h [ (p, c1); (q, c2) ] = Some ([r1; r2], h') →
  run long_bits h [ (q, c2); (p, c1) ] = Some ([r2; r1], h').
Proof.
  intros Hne (r & h1 & rs1 & Hc1 & Hr & Heq)%run_cons_inv.
  apply run_cons_inv in Hr as (r' & h2 & rs2 & Hc2 & Hr & ->).
  cbn in Hr. simplify_eq.
  destruct (run_call_commute _ _ _ _ _ _ _ _ _ _ Hne Hc1 Hc2)
    as (h1' & Hq & Hp).
  rewrite run_cons, Hq. cbn. by rewrite Hp.
Qed.

(** An increment that wraps on an integer cell and a toggle of a boolean
    cell, in the other order. *)
Lemma calls_on_distinct_wrappers_commute_witness :
  run 64 {[ 1%positive := c_sd_atomic_long 9223372036854775807;
            2%positive := c_sd_atomic_bool 1 ]}
      [ (2%positive, bool_add true); (1%positive, long_add 1) ]
  = Some ([ret_bool true; ret_long 9223372036854775807],
          {[ 1%positive := c_sd_atomic_long (-9223372036854775808);
             2%positive := c_sd_atomic_bool 0 ]}).
Proof.
  assert (Hrun :
    run 64 ({[ 1%positive := c_sd_atomic_long 9223372036854775807;
               2%positive := c_sd_atomic_bool 1 ]} : gmap positive object)
        [ (1%positive, long_add 1); (2%positive, bool_add true) ]
    = Some ([ret_long 9223372036854775807; ret_bool true],
            {[ 1%positive := c_sd_atomic_long (-9223372036854775808);
               2%positive := c_sd_atomic_bool 0 ]})) by reflexivity.
  exact (calls_on_distinct_wrappers_commute 64 _ 1 2 _ _ _ _ _
           ltac:(discriminate) Hrun).
Defined.

(** X5. Along any sequence of calls other than the boolean [add] and [sub],
    boolean cells that hold the byte 0 or 1 keep doing so; on the heap
    reached, a compare-and-exchange on a boolean cell succeeds exactly when
    [load] returns [expected], and then stores [desired]; a [create] keeps
    the bytes 0 or 1 as well. *)
Theorem bool_cells_stay_canonical
    (long_bits : Z) (malloc : gmap positive object → option positive)
    (h : gmap positive object) (tr : list (positive * call))
    (rs : list result) (h' : gmap positive object) :
  canonical_heap h →
  Forall (λ pc, no_bool_arith pc.2) tr →
  run long_bits h tr = Some (rs, h') →
  canonical_heap h'
  ∧ (∀ p x e d,
       h' !! p = Some (c_sd_atomic_bool x) →
       ∃ b, c_sd_atomic_bool_load h' p = Some b
            ∧ c_sd_atomic_bool_compare_and_exchange h' p e d
              = Some (if bool_decide (b = e)
                      then (true,
                            <[p := c_sd_atomic_bool (byte_of_bool d)]> h')
                      else (false, h')))
  ∧ (∀ b p h'',
       c_sd_atomic_bool_create malloc h' b = Some (p, h'') →
       canonical_heap h'')
  ∧ (∀ v p h'',
       c_sd_atomic_long_create malloc h' v = Some (p, h'') →
       canonical_heap h'').
Proof.
  intros Hcan Hcalls Hrun.
  assert (Hcan' : canonical_heap h') by by eapply run_canonical.
  split; [done|]. split; [|split].
  - intros p x e d Hp. exists (bool_of_byte x).
    split; [by apply bool_load_eq|].
    apply bool_cas_canonical.
    by destruct (Hcan' _ _ Hp) as [-> | ->].
  - intros b p h'' [_ ->]%bool_create_inv.
    apply map_Forall_insert_2; [|done]. destruct b; cbn; lia.
  - intros v p h'' [_ ->]%long_create_inv.
    by apply map_Forall_insert_2.
Qed.

(** A boolean cell holding [false] is stored [true], then exchanged back:
    the bytes stay 0 or 1 and a further exchange expecting [false]
    succeeds. *)
Lemma bool_cells_stay_canonical_witness :
  canonical_heap {[ 2%positive := c_sd_atomic_bool 0 ]}
  ∧ ∃ b, c_sd_atomic_bool_load {[ 2%positive := c_sd_atomic_bool 0 ]} 2
         = Some b
         ∧ c_sd_atomic_bool_compare_and_exchange
             {[ 2%positive := c_sd_atomic_bool 0 ]} 2 false true
           = Some (if bool_decide (b = false)
                   then (true,
                         <[ 2%positive := c_sd_atomic_bool (byte_of_bool true)]>
                           {[ 2%positive := c_sd_atomic_bool 0 ]})
                   else (false, {[ 2%positive := c_sd_atomic_bool 0 ]})).
Proof.
  assert (Hcan : canonical_heap
            ({[ 2%positive := c_sd_atomic_bool 0 ]} : gmap positive object)).
  { apply map_Forall_singleton. by left. }
  assert (Hcalls : Forall (λ pc : positive * call, no_bool_arith pc.2)
            [ (2%positive, bool_store true);
              (2%positive, bool_compare_and_exchange true false) ])
    by (by repeat constructor).
  assert (Hrun :
    run 64 ({[ 2%positive := c_sd_atomic_bool 0 ]} : gmap positive object)
        [ (2%positive, bool_store true);
          (2%positive, bool_compare_and_exchange true false) ]
    = Some ([ret_void; ret_bool true],
            {[ 2%positive := c_sd_atomic_bool 0 ]})) by reflexivity.
  assert (Hp : ({[ 2%positive := c_sd_atomic_bool 0 ]}
                  : gmap positive object) !! 2%positive
               = Some (c_sd_atomic_bool 0)) by reflexivity.
  destruct (bool_cells_stay_canonical 64 malloc_fresh _ _ _ _
              Hcan Hcalls Hrun) as (H1 & H2 & _).
  exact (conj H1 (H2 2%positive 0 false true Hp)).
Defined.

(* ===================================================================== *)
(** ** Pools of threads                                                   *)
(* ===================================================================== *)

Section pools.

Variable long_bits : Z.
Implicit Types (h : gmap positive object) (ts : list thread).

Lemma remaining_cons t ts :
  remaining (t :: ts) = (length (todo t) + remaining ts)%nat.
Proof. reflexivity. Qed.

Lemma remaining_insert ts : ∀ i pc tr rs rs',
  ts !! i = Some (mk_thread (pc :: tr) rs) →
  S (remaining (<[i := mk_thread tr rs']> ts)) = remaining ts.
Proof.
  induction ts as [|t ts IH]; intros [|i] pc tr rs rs'; try done.
  - intros [= ->].
    change (<[0%nat := mk_thread tr rs']> (mk_thread (pc :: tr) rs :: ts))
      with (mk_thread tr rs' :: ts).
    rewrite !remaining_cons. cbn. lia.
  - intros Hi.
    change (<[S i := mk_thread tr rs']> (t :: ts))
      with (t :: <[i := mk_thread tr rs']> ts).
    rewrite !remaining_cons, <- (IH _ _ _ _ rs' Hi). lia.
Qed.

Lemma remaining_zero_joined ts : remaining ts = 0%nat → joined ts.
Proof.
  induction ts as [|t ts IH]; [by constructor|].
  rewrite remaining_cons. intros Hz. constructor.
  - destruct (todo t); [done|]. cbn in Hz. lia.
  - apply IH. lia.
Qed.

Lemma exists_pending ts :
  remaining ts ≠ 0%nat →
  ∃ i pc tr rs, ts !! i = Some (mk_thread (pc :: tr) rs).
Proof.
  induction ts as [|[[|pc tr] rs] ts IH]; [done| |].
  - rewrite remaining_cons. cbn. intros Hz.
    destruct (IH Hz) as (i & pc & tr & rs' & Hi).
    by exists (S i), pc, tr, rs'.
  - intros _. by exists 0%nat, pc, tr, rs.
Qed.

Lemma pool_step_length c c' :
  pool_step long_bits c c' → length c'.2 = length c.2.
Proof. intros Hstep. inversion Hstep; subst. cbn. apply length_insert. Qed.

Lemma rtc_pool_step_length c c' :
  rtc (pool_step long_bits) c c' → length c'.2 = length c.2.
Proof.
  induction 1 as [|c c1 c' Hstep _ IH]; [done|].
  rewrite IH. by apply pool_step_length.
Qed.

(** A property of configurations that the steps keep holds after any
    number of steps. *)
Lemma rtc_pool_step_inv (Inv : gmap positive object * list thread → Prop) :
  (∀ c c', Inv c → pool_step long_bits c c' → Inv c') →
  ∀ c c', rtc (pool_step long_bits) c c' → Inv c → Inv c'.
Proof.
  intros Hpres c c' Hrtc. induction Hrtc as [|c c1 c' Hstep _ IH]; [done|].
  intros Hc. apply IH. by eapply Hpres.
Qed.

(** When the steps keep a property under which the next call of every
    thread has a result, the threads can all run to their end. *)
Lemma pool_finishes (Inv : gmap positive object * list thread → Prop) :
  (∀ h ts i p c tr rs,
     Inv (h, ts) → ts !! i = Some (mk_thread ((p, c) :: tr) rs) →
     is_Some (run_call long_bits h p c)) →
  (∀ c c', Inv c → pool_step long_bits c c' → Inv c') →
  ∀ c, Inv c → ∃ c', rtc (pool_step long_bits) c c' ∧ joined c'.2.
Proof.
  intros Hprog Hpres c. remember (remaining c.2) as n eqn:Hn.
  revert c Hn. induction n as [|n IH]; intros [h ts] Hn HInv;
    cbn [snd] in Hn.
  - exists (h, ts). split; [done|]. by apply remaining_zero_joined.
  - assert (Hne : remaining ts ≠ 0%nat) by lia.
    destruct (exists_pending ts Hne) as (i & [p c] & tr & rs & Hi).
    destruct (Hprog _ _ _ _ _ _ _ HInv Hi) as [[r h1] Hcall].
    assert (Hstep : pool_step long_bits (h, ts)
                      (h1, <[i := mk_thread tr (rs ++ [r])]> ts))
      by by econstructor.
    destruct (IH (h1, <[i := mk_thread tr (rs ++ [r])]> ts))
      as (c' & Hrtc & Hj).
    + cbn [snd].
      pose proof (remaining_insert ts i (p, c) tr rs (rs ++ [r]) Hi). lia.
    + by eapply Hpres.
    + exists c'. split; [|done]. by eapply rtc_l.
Qed.

(** *** Threads that only add and subtract *)

Lemma todo_delta_cons pc tr :
  todo_delta (pc :: tr) = call_delta pc.2 + todo_delta tr.
Proof. reflexivity. Qed.

Lemma pool_delta_cons t ts :
  pool_delta (t :: ts) = todo_delta (todo t) + pool_delta ts.
Proof. reflexivity. Qed.

Lemma pool_delta_insert ts : ∀ i pc tr rs rs',
  ts !! i = Some (mk_thread (pc :: tr) rs) →
  pool_delta (<[i := mk_thread tr rs']> ts) = pool_delta ts - call_delta pc.2.
Proof.
  induction ts as [|t ts IH]; intros [|i] pc tr rs rs'; try done.
  - intros [= ->].
    change (<[0%nat := mk_thread tr rs']> (mk_thread (pc :: tr) rs :: ts))
      with (mk_thread tr rs' :: ts).
    rewrite !pool_delta_cons. cbn [todo]. rewrite todo_delta_cons. lia.
  - intros Hi.
    change (<[S i := mk_thread tr rs']> (t :: ts))
      with (t :: <[i := mk_thread tr rs']> ts).
    rewrite !pool_delta_cons, (IH _ _ _ _ rs' Hi). lia.
Qed.

Lemma pool_delta_joined ts : joined ts → pool_delta ts = 0.
Proof.
  induction 1 as [|t ts Ht _ IH]; [done|].
  rewrite pool_delta_cons, Ht, IH. done.
Qed.

(** An arithmetic call on an integer cell holding [v]. *)
Lemma add_sub_call_eq h p c v :
  is_add_sub c →
  h !! p = Some (c_sd_atomic_long v) →
  run_call long_bits h p c =
    Some (ret_long v,
          <[p := c_sd_atomic_long (wrap_long long_bits (v + call_delta c))]> h).
Proof.
  intros Hc Hp. destruct c; try done; cbn.
  - by rewrite (long_add_eq _ _ _ _ _ Hp).
  - rewrite (long_sub_eq _ _ _ _ _ Hp). cbn.
    by replace (v + - value) with (v - value) by lia.
Qed.

Section add_sub.

Hypothesis long_bits_pos : 0 < long_bits.
Variable p : positive.
Variable total : Z.

Local Abbreviation add_sub_inv := (add_sub_pool long_bits p total).

Lemma add_sub_inv_step c c' :
  add_sub_inv c → pool_step long_bits c c' → add_sub_inv c'.
Proof.
  intros Hinv Hstep.
  inversion Hstep as [h h' ts i q c0 tr rs r Hi Hcall]; subst.
  destruct Hinv as [Hall (v & Hv & Hin & Htot)]. cbn [fst snd] in *.
  pose proof (Forall_lookup_1 _ _ _ _ Hall Hi) as Ht. cbn in Ht.
  apply Forall_cons in Ht as [[Hq Hc0] Htr]. cbn in Hq, Hc0. subst q.
  rewrite (add_sub_call_eq _ _ _ _ Hc0 Hv) in Hcall.
  injection Hcall as <- <-. unfold add_sub_pool. cbn [fst snd]. split.
  - by apply Forall_insert.
  - eexists. split; [apply lookup_insert_eq|].
    split; [by apply wrap_signed_in_range|].
    rewrite (pool_delta_insert _ _ _ _ _ _ Hi). cbn [snd].
    unfold wrap_long in *. rewrite wrap_signed_plus_l by done.
    rewrite <- Htot. f_equal. lia.
Qed.

Lemma add_sub_inv_progress h ts i q c tr rs :
  add_sub_inv (h, ts) → ts !! i = Some (mk_thread ((q, c) :: tr) rs) →
  is_Some (run_call long_bits h q c).
Proof.
  intros [Hall (v & Hv & _)] Hi. cbn [fst snd] in *.
  pose proof (Forall_lookup_1 _ _ _ _ Hall Hi) as Ht. cbn in Ht.
  apply Forall_cons in Ht as [[Hq Hc0] _]. cbn in Hq, Hc0. subst q.
  by rewrite (add_sub_call_eq _ _ _ _ Hc0 Hv).
Qed.

Lemma add_sub_inv_final h ts :
  add_sub_inv (h, ts) → joined ts →
  c_sd_atomic_long_load h p = Some total.
Proof.
  intros [_ (v & Hv & Hin & Htot)] Hj. cbn [fst snd] in *.
  rewrite (long_load_eq _ _ _ Hv). f_equal.
  rewrite pool_delta_joined, Z.add_0_r in Htot by done.
  rewrite <- Htot. symmetry. by apply wrap_signed_id.
Qed.

End add_sub.

End pools.

(** X6. Threads that only call [add] and [sub] on one integer cell, with
    any deltas, can always all run to their end, and however their calls
    interleave the cell then holds its initial value plus the sum of the
    deltas added minus those subtracted, reduced to the width of [long]. *)
Theorem c_sd_atomic_long_add_sub_interleave
    (long_bits : Z) (p : positive) (h : gmap positive object) (v : Z)
    (ts : list thread) :
  0 < long_bits →
  in_long long_bits v →
  h !! p = Some (c_sd_atomic_long v) →
  Forall (λ t, Forall (λ pc, pc.1 = p ∧ is_add_sub pc.2) (todo t)) ts →
  (∃ h' ts', rtc (pool_step long_bits) (h, ts) (h', ts') ∧ joined ts')
  ∧ (∀ h' ts',
       rtc (pool_step long_bits) (h, ts) (h', ts') → joined ts' →
       c_sd_atomic_long_load h' p
         = Some (wrap_long long_bits (v + pool_delta ts))).
Proof.
  intros Hw Hv Hp Hall.
  assert (Hinv : add_sub_pool long_bits p
                   (wrap_long long_bits (v + pool_delta ts)) (h, ts)).
  { split; [done|]. by exists v. }
  split.
  - destruct (pool_finishes long_bits _
                (add_sub_inv_progress long_bits p _)
                (add_sub_inv_step long_bits Hw p _) _ Hinv)
      as ([h' ts'] & Hrtc & Hj).
    by exists h', ts'.
  - intros h' ts' Hrtc Hj.
    apply (add_sub_inv_final long_bits Hw p _ h' ts'); [|done].
    by apply (rtc_pool_step_inv long_bits _
                (add_sub_inv_step long_bits Hw p _) _ _ Hrtc).
Qed.

(** With a 64-bit [long]: one thread adds 5 then subtracts 2, another
    subtracts 10, on a cell holding 0; every interleaving ends with -7. *)
Lemma c_sd_atomic_long_add_sub_interleave_witness :
  (∃ h' ts',
     rtc (pool_step 64)
         ({[ 1%positive := c_sd_atomic_long 0 ]},
          [ mk_thread [ (1%positive, long_add 5); (1%positive, long_sub 2) ] [];
            mk_thread [ (1%positive, long_sub 10) ] [] ])
         (h', ts')
     ∧ joined ts')
  ∧ (∀ h' ts',
       rtc (pool_step 64)
           ({[ 1%positive := c_sd_atomic_long 0 ]},
            [ mk_thread [ (1%positive, long_add 5); (1%positive, long_sub 2) ] [];
              mk_thread [ (1%positive, long_sub 10) ] [] ])
           (h', ts') →
       joined ts' →
       c_sd_atomic_long_load h' 1 = Some (-7)).
Proof.
  assert (H0 : ({[ 1%positive := c_sd_atomic_long 0 ]}
                  : gmap positive object) !! 1%positive
               = Some (c_sd_atomic_long 0)) by reflexivity.
  assert (Hall : Forall (λ t, Forall (λ pc : positive * call,
                                        pc.1 = 1%positive ∧ is_add_sub pc.2)
                                     (todo t))
            [ mk_thread [ (1%positive, long_add 5); (1%positive, long_sub 2) ] [];
              mk_thread [ (1%positive, long_sub 10) ] [] ])
    by (by repeat constructor).
  exact (c_sd_atomic_long_add_sub_interleave 64 1 _ 0 _ ltac:(lia)
           ltac:(unfold in_long, in_signed; lia) H0 Hall).
Defined.

(* ===================================================================== *)
(** ** Threads racing on one compare-and-exchange                         *)
(* ===================================================================== *)

Lemma winners_cons t ts :
  winners (t :: ts) =
    ((if decide (returned t = [ret_bool true]) then 1 else 0) + winners ts)%nat.
Proof. unfold winners. rewrite filter_cons. by case_decide. Qed.

Lemma winners_insert ts : ∀ i t t',
  ts !! i = Some t →
  returned t ≠ [ret_bool true] →
  winners (<[i := t']> ts) =
    ((if decide (returned t' = [ret_bool true]) then 1 else 0) + winners ts)%nat.
Proof.
  induction ts as [|t0 ts IH]; intros [|i] t t'; try done.
  - intros [= ->] Hlose.
    change (<[0%nat := t']> (t :: ts)) with (t' :: ts).
    rewrite !winners_cons. rewrite (decide_False (P := returned t = _)) by done.
    done.
  - intros Hi Hlose.
    change (<[S i := t']> (t0 :: ts)) with (t0 :: <[i := t']> ts).
    rewrite !winners_cons, (IH _ _ _ Hi Hlose). lia.
Qed.

Lemma winners_none ts :
  Forall (λ t, returned t ≠ [ret_bool true]) ts → winners ts = 0%nat.
Proof.
  induction 1 as [|t ts Ht _ IH]; [done|].
  rewrite winners_cons, IH. by rewrite decide_False.
Qed.

Section race.

Variable long_bits : Z.
Variable p : positive.
Variable c : call.
Variables o_init o_won : object.

(** The call wins on [o_init] and loses on [o_won]. *)
Hypothesis call_wins : ∀ h : gmap positive object,
  h !! p = Some o_init →
  run_call long_bits h p c = Some (ret_bool true, <[p := o_won]> h).
Hypothesis call_loses : ∀ h : gmap positive object,
  h !! p = Some o_won →
  run_call long_bits h p c = Some (ret_bool false, h).

Local Abbreviation race_inv := (single_winner p c o_init o_won).

Lemma race_inv_step cfg cfg' :
  race_inv cfg → pool_step long_bits cfg cfg' → race_inv cfg'.
Proof.
  intros Hinv Hstep.
  inversion Hstep as [h h' ts i q c0 tr rs r Hi Hcall]; subst.
  destruct Hinv as [[Hp Hall] | (Hp & Hall & Hone)]; cbn [fst snd] in *.
  - pose proof (Forall_lookup_1 _ _ _ _ Hall Hi) as Ht. cbn in Ht.
    injection Ht as -> -> -> ->.
    rewrite (call_wins _ Hp) in Hcall. injection Hcall as <- <-.
    right. cbn [fst snd]. split; [apply lookup_insert_eq|]. split.
    + apply Forall_insert; [|by right; left].
      eapply Forall_impl; [exact Hall|]. intros t ->. by left.
    + rewrite (winners_insert _ _ _ _ Hi) by done.
      rewrite winners_none; [done|].
      eapply Forall_impl; [exact Hall|]. by intros t ->.
  - pose proof (Forall_lookup_1 _ _ _ _ Hall Hi) as Ht. cbn in Ht.
    destruct Ht as [Ht | [Ht | Ht]]; try discriminate Ht.
    injection Ht as -> -> -> ->.
    rewrite (call_loses _ Hp) in Hcall. injection Hcall as <- <-.
    right. cbn [fst snd]. split; [done|]. split.
    + apply Forall_insert; [done|]. by right; right.
    + by rewrite (winners_insert _ _ _ _ Hi) by done.
Qed.

Lemma race_inv_progress h ts i q c0 tr rs :
  race_inv (h, ts) → ts !! i = Some (mk_thread ((q, c0) :: tr) rs) →
  is_Some (run_call long_bits h q c0).
Proof.
  intros [[Hp Hall] | (Hp & Hall & Hone)] Hi; cbn [fst snd] in *.
  - pose proof (Forall_lookup_1 _ _ _ _ Hall Hi) as Ht. cbn in Ht.
    injection Ht as -> -> -> ->. by rewrite (call_wins _ Hp).
  - pose proof (Forall_lookup_1 _ _ _ _ Hall Hi) as Ht. cbn in Ht.
    destruct Ht as [Ht | [Ht | Ht]]; try discriminate Ht.
    injection Ht as -> -> -> ->. by rewrite (call_loses _ Hp).
Qed.

Lemma race_inv_final h ts :
  race_inv (h, ts) → joined ts → ts ≠ [] →
  h !! p = Some o_won
  ∧ winners ts = 1%nat
  ∧ Forall (λ t, returned t = [ret_bool true]
                 ∨ returned t = [ret_bool false]) ts.
Proof.
  intros [[Hp Hall] | (Hp & Hall & Hone)] Hj Hne; cbn [fst snd] in *.
  - destruct ts as [|t ts]; [done|].
    apply Forall_cons in Hall as [-> _]. apply Forall_cons in Hj as [Hj _].
    discriminate Hj.
  - split; [done|]. split; [done|].
    apply Forall_forall. intros t Ht.
    rewrite Forall_forall in Hall. unfold joined in Hj.
    rewrite Forall_forall in Hj.
    destruct (Hall t Ht) as [-> | [-> | ->]]; [|by left|by right].
    specialize (Hj _ Ht). discriminate Hj.
Qed.

(** From a cell holding [o_init], [S n] threads racing on the call. *)
Lemma race_outcome (h : gmap positive object) n :
  h !! p = Some o_init →
  (∃ h' ts',
     rtc (pool_step long_bits)
         (h, replicate (S n) (mk_thread [(p, c)] [])) (h', ts')
     ∧ joined ts')
  ∧ (∀ h' ts',
       rtc (pool_step long_bits)
           (h, replicate (S n) (mk_thread [(p, c)] [])) (h', ts') →
       joined ts' →
       h' !! p = Some o_won
       ∧ winners ts' = 1%nat
       ∧ length ts' = S n
       ∧ Forall (λ t, returned t = [ret_bool true]
                      ∨ returned t = [ret_bool false]) ts').
Proof.
  intros Hp.
  assert (Hinv : race_inv (h, replicate (S n) (mk_thread [(p, c)] []))).
  { left. split; [done|]. by apply Forall_replicate. }
  split.
  - destruct (pool_finishes long_bits _ race_inv_progress race_inv_step
                _ Hinv) as ([h' ts'] & Hrtc & Hj).
    by exists h', ts'.
  - intros h' ts' Hrtc Hj.
    pose proof (rtc_pool_step_length _ _ _ Hrtc) as Hlen.
    cbn [snd] in Hlen. rewrite length_replicate in Hlen.
    pose proof (rtc_pool_step_inv long_bits _ race_inv_step _ _ Hrtc Hinv)
      as Hinv'.
    destruct (race_inv_final _ _ Hinv' Hj) as (H1 & H2 & H3).
    { intros ->. discriminate Hlen. }
    done.
Qed.

End race.

(** X7. Threads that each call compare-and-exchange once on an integer
    cell holding [e], all with [expected = e] and the same [desired ≠ e],
    can always all run to their end, and however their calls interleave
    exactly one call returns true, every other returns false, and the cell
    ends holding [desired]. *)
Theorem c_sd_atomic_long_compare_and_exchange_single_winner
    (long_bits : Z) (p : positive) (h : gmap positive object) (n : nat)
    (e d : Z) :
  e ≠ d →
  h !! p = Some (c_sd_atomic_long e) →
  (∃ h' ts',
     rtc (pool_step long_bits)
         (h, replicate (S n)
               (mk_thread [(p, long_compare_and_exchange e d)] []))
         (h', ts')
     ∧ joined ts')
  ∧ (∀ h' ts',
       rtc (pool_step long_bits)
           (h, replicate (S n)
                 (mk_thread [(p, long_compare_and_exchange e d)] []))
           (h', ts') →
       joined ts' →
       c_sd_atomic_long_load h' p = Some d
       ∧ winners ts' = 1%nat
       ∧ length ts' = S n
       ∧ Forall (λ t, returned t = [ret_bool true]
                      ∨ returned t = [ret_bool false]) ts').
Proof.
  intros Hne Hp.
  destruct (race_outcome long_bits p (long_compare_and_exchange e d)
              (c_sd_atomic_long e) (c_sd_atomic_long d)) with (h := h) (n := n)
    as [Hex Hall]; [| |done|].
  - intros h0 H0. cbn. rewrite (long_cas_eq _ _ _ e d H0).
    by rewrite bool_decide_eq_true_2.
  - intros h0 H0. cbn. rewrite (long_cas_eq _ _ _ e d H0).
    by rewrite bool_decide_eq_false_2.
  - split; [done|]. intros h' ts' Hrtc Hj.
    destruct (Hall h' ts' Hrtc Hj) as (H1 & H2 & H3 & H4).
    split; [by apply long_load_eq|done].
Qed.

(** Three threads exchanging 0 for 1 on a cell holding 0. *)
Lemma c_sd_atomic_long_compare_and_exchange_single_winner_witness :
  (∃ h' ts',
     rtc (pool_step 64)
         ({[ 1%positive := c_sd_atomic_long 0 ]},
          replicate 3 (mk_thread [(1%positive, long_compare_and_exchange 0 1)] []))
         (h', ts')
     ∧ joined ts')
  ∧ (∀ h' ts',
       rtc (pool_step 64)
           ({[ 1%positive := c_sd_atomic_long 0 ]},
            replicate 3
              (mk_thread [(1%positive, long_compare_and_exchange 0 1)] []))
           (h', ts') →
       joined ts' →
       c_sd_atomic_long_load h' 1 = Some 1
       ∧ winners ts' = 1%nat
       ∧ length ts' = 3%nat
       ∧ Forall (λ t, returned t = [ret_bool true]
                      ∨ returned t = [ret_bool false]) ts').
Proof.
  assert (H0 : ({[ 1%positive := c_sd_atomic_long 0 ]}
                  : gmap positive object) !! 1%positive
               = Some (c_sd_atomic_long 0)) by reflexivity.
  exact (c_sd_atomic_long_compare_and_exchange_single_winner 64 1 _ 2 0 1
           ltac:(lia) H0).
Defined.

(** X8. Threads that each call compare-and-exchange once on a boolean cell
    holding the byte of [e], all with [expected = e] and [desired] its
    negation, can always all run to their end, and however their calls
    interleave exactly one call returns true, every other returns false,
    and the cell ends reading the negation of [e]. *)
Theorem c_sd_atomic_bool_compare_and_exchange_single_winner
    (long_bits : Z) (p : positive) (h : gmap positive object) (n : nat)
    (e : bool) :
  h !! p = Some (c_sd_atomic_bool (byte_of_bool e)) →
  (∃ h' ts',
     rtc (pool_step long_bits)
         (h, replicate (S n)
               (mk_thread [(p, bool_compare_and_exchange e (negb e))] []))
         (h', ts')
     ∧ joined ts')
  ∧ (∀ h' ts',
       rtc (pool_step long_bits)
           (h, replicate (S n)
                 (mk_thread [(p, bool_compare_and_exchange e (negb e))] []))
           (h', ts') →
       joined ts' →
       c_sd_atomic_bool_load h' p = Some (negb e)
       ∧ winners ts' = 1%nat
       ∧ length ts' = S n
       ∧ Forall (λ t, returned t = [ret_bool true]
                      ∨ returned t = [ret_bool false]) ts').
Proof.
  intros Hp.
  destruct (race_outcome long_bits p (bool_compare_and_exchange e (negb e))
              (c_sd_atomic_bool (byte_of_bool e))
              (c_sd_atomic_bool (byte_of_bool (negb e))))
    with (h := h) (n := n) as [Hex Hall]; [| |done|].
  - intros h0 H0. cbn. rewrite (bool_cas_canonical _ _ _ e (negb e) H0).
    by rewrite bool_decide_eq_true_2.
  - intros h0 H0. cbn. rewrite (bool_cas_canonical _ _ _ e (negb e) H0).
    rewrite bool_decide_eq_false_2; [done|]. by destruct e.
  - split; [done|]. intros h' ts' Hrtc Hj.
    destruct (Hall h' ts' Hrtc Hj) as (H1 & H2 & H3 & H4).
    split; [|done]. rewrite (bool_load_eq _ _ _ H1).
    by rewrite bool_of_byte_of_bool.
Qed.

(** Four threads setting a flag that is [false]. *)
Lemma c_sd_atomic_bool_compare_and_exchange_single_winner_witness :
  (∃ h' ts',
     rtc (pool_step 64)
         ({[ 1%positive := c_sd_atomic_bool 0 ]},
          replicate 4
            (mk_thread [(1%positive, bool_compare_and_exchange false true)] []))
         (h', ts')
     ∧ joined ts')
  ∧ (∀ h' ts',
       rtc (pool_step 64)
           ({[ 1%positive := c_sd_atomic_bool 0 ]},
            replicate 4
              (mk_thread [(1%positive, bool_compare_and_exchange false true)] []))
           (h', ts') →
       joined ts' →
       c_sd_atomic_bool_load h' 1 = Some true
       ∧ winners ts' = 1%nat
       ∧ length ts' = 4%nat
       ∧ Forall (λ t, returned t = [ret_bool true]
                      ∨ returned t = [ret_bool false]) ts').
Proof.
  assert (H0 : ({[ 1%positive := c_sd_atomic_bool 0 ]}
                  : gmap positive object) !! 1%positive
               = Some (c_sd_atomic_bool (byte_of_bool false)))
    by reflexivity.
  exact (c_sd_atomic_bool_compare_and_exchange_single_winner 64 1 _ 3 false
           H0).
Defined.

(* ===================================================================== *)
(** ** Fetch-and-add as a ticket dispenser                                *)
(* ===================================================================== *)

Lemma all_returned_cons t ts :
  all_returned (t :: ts) = returned t ++ all_returned ts.
Proof. reflexivity. Qed.

Lemma all_returned_insert ts : ∀ i tr0 rs tr r,
  ts !! i = Some (mk_thread tr0 rs) →
  all_returned (<[i := mk_thread tr (rs ++ [r])]> ts)
  ≡ₚ r :: all_returned ts.
Proof.
  induction ts as [|t ts IH]; intros [|i] tr0 rs tr r; try done.
  - intros [= ->].
    change (<[0%nat := mk_thread tr (rs ++ [r])]> (mk_thread tr0 rs :: ts))
      with (mk_thread tr (rs ++ [r]) :: ts).
    rewrite !all_returned_cons. cbn [returned].
    rewrite <- (assoc_L (++)). cbn.
    by rewrite <- Permutation_middle.
  - intros Hi.
    change (<[S i := mk_thread tr (rs ++ [r])]> (t :: ts))
      with (t :: <[i := mk_thread tr (rs ++ [r])]> ts).
    rewrite !all_returned_cons, (IH _ _ _ tr r Hi).
    by rewrite <- Permutation_middle.
Qed.

Lemma all_returned_nil ts :
  Forall (λ t, returned t = []) ts → all_returned ts = [].
Proof.
  induction 1 as [|t ts Ht _ IH]; [done|].
  by rewrite all_returned_cons, Ht, IH.
Qed.

Section tickets.

Variable long_bits : Z.
Hypothesis long_bits_pos : 0 < long_bits.
Variable p : positive.
Variable v0 : Z.
Variable total : nat.
Hypothesis first_in_long : in_long long_bits v0.
Hypothesis last_in_long : in_long long_bits (v0 + Z.of_nat total).

Local Abbreviation ticket_inv := (ticket_pool p v0 total).

Lemma ticket_inv_step cfg cfg' :
  ticket_inv cfg → pool_step long_bits cfg cfg' → ticket_inv cfg'.
Proof.
  intros Hinv Hstep.
  inversion Hstep as [h h' ts i q c0 tr rs r Hi Hcall]; subst.
  destruct Hinv as [Hall (k & Hv & Hk & Hperm)]. cbn [fst snd] in *.
  pose proof (Forall_lookup_1 _ _ _ _ Hall Hi) as Ht. cbn in Ht.
  apply Forall_cons in Ht as [[= -> ->] Htr].
  pose proof (remaining_insert ts i (p, long_add 1) tr rs (rs ++ [r]) Hi)
    as Hrem.
  cbn in Hcall. rewrite (long_add_eq _ _ _ _ _ Hv) in Hcall. cbn in Hcall.
  injection Hcall as <- <-.
  assert (Hnext : wrap_long long_bits (v0 + Z.of_nat k + 1)
                  = v0 + Z.of_nat (S k)).
  { unfold wrap_long. rewrite wrap_signed_id; [lia|done|].
    unfold in_long, in_signed in *. lia. }
  split; cbn [fst snd].
  - by apply Forall_insert.
  - exists (S k). rewrite Hnext. split; [apply lookup_insert_eq|].
    split; [lia|].
    rewrite (all_returned_insert _ _ _ _ _ _ Hi), Hperm.
    rewrite seq_S, fmap_app. cbn. by rewrite <- Permutation_cons_append.
Qed.

Lemma ticket_inv_progress h ts i q c tr rs :
  ticket_inv (h, ts) → ts !! i = Some (mk_thread ((q, c) :: tr) rs) →
  is_Some (run_call long_bits h q c).
Proof.
  intros [Hall (k & Hv & _)] Hi. cbn [fst snd] in *.
  pose proof (Forall_lookup_1 _ _ _ _ Hall Hi) as Ht. cbn in Ht.
  apply Forall_cons in Ht as [[= -> ->] _].
  cbn. by rewrite (long_add_eq _ _ _ _ _ Hv).
Qed.

Lemma ticket_inv_final h ts :
  ticket_inv (h, ts) → joined ts →
  c_sd_atomic_long_load h p = Some (v0 + Z.of_nat total)
  ∧ all_returned ts
    ≡ₚ (λ j : nat, ret_long (v0 + Z.of_nat j)) <$> seq 0 total
  ∧ NoDup (all_returned ts).
Proof.
  intros [_ (k & Hv & Hk & Hperm)] Hj. cbn [fst snd] in *.
  assert (remaining ts = 0%nat) as Hz.
  { clear -Hj. induction Hj as [|t ts Ht _ IH]; [done|].
    by rewrite remaining_cons, Ht, IH. }
  assert (k = total) as -> by lia.
  split; [by apply long_load_eq|]. split; [done|].
  rewrite Hperm. apply NoDup_fmap_2; [|apply NoDup_seq].
  intros j1 j2 [= Heq]. lia.
Qed.

End tickets.

(** X9. Threads that only call [add] with 1 on one integer cell holding
    [v0], [K] calls in all with [v0 + K] a [long] value, can always all run
    to their end, and however their calls interleave the calls return
    [v0], [v0 + 1], ..., [v0 + K - 1], each exactly once: no two calls
    return the same value, and the cell ends holding [v0 + K]. *)
Theorem c_sd_atomic_long_add_tickets
    (long_bits : Z) (p : positive) (h : gmap positive object) (v0 : Z)
    (ts : list thread) :
  0 < long_bits →
  in_long long_bits v0 →
  in_long long_bits (v0 + Z.of_nat (remaining ts)) →
  h !! p = Some (c_sd_atomic_long v0) →
  Forall (λ t, returned t = []) ts →
  Forall (λ t, Forall (λ pc, pc = (p, long_add 1)) (todo t)) ts →
  (∃ h' ts', rtc (pool_step long_bits) (h, ts) (h', ts') ∧ joined ts')
  ∧ (∀ h' ts',
       rtc (pool_step long_bits) (h, ts) (h', ts') → joined ts' →
       c_sd_atomic_long_load h' p = Some (v0 + Z.of_nat (remaining ts))
       ∧ all_returned ts'
         ≡ₚ (λ j : nat, ret_long (v0 + Z.of_nat j)) <$> seq 0 (remaining ts)
       ∧ NoDup (all_returned ts')).
Proof.
  intros Hw Hfirst Hlast Hp Hnone Hall.
  assert (Hinv : ticket_pool p v0 (remaining ts) (h, ts)).
  { split; [done|]. exists 0%nat. cbn [fst snd].
    rewrite Z.add_0_r, all_returned_nil by done. by repeat split. }
  split.
  - destruct (pool_finishes long_bits _
                (ticket_inv_progress long_bits p v0 _)
                (ticket_inv_step long_bits Hw p v0 _ Hfirst Hlast) _ Hinv)
      as ([h' ts'] & Hrtc & Hj).
    by exists h', ts'.
  - intros h' ts' Hrtc Hj.
    apply (ticket_inv_final p v0 (remaining ts) h' ts'); [|done].
    by apply (rtc_pool_step_inv long_bits _
                (ticket_inv_step long_bits Hw p v0 _ Hfirst Hlast) _ _ Hrtc).
Qed.

(** With a 64-bit [long]: one thread takes two tickets and another takes
    one from a cell holding 7; the three calls return 7, 8 and 9 in some
    order and the cell ends holding 10. *)
Lemma c_sd_atomic_long_add_tickets_witness :
  (∃ h' ts',
     rtc (pool_step 64)
         ({[ 1%positive := c_sd_atomic_long 7 ]},
          [ mk_thread [ (1%positive, long_add 1); (1%positive, long_add 1) ] [];
            mk_thread [ (1%positive, long_add 1) ] [] ])
         (h', ts')
     ∧ joined ts')
  ∧ (∀ h' ts',
       rtc (pool_step 64)
           ({[ 1%positive := c_sd_atomic_long 7 ]},
            [ mk_thread [ (1%positive, long_add 1); (1%positive, long_add 1) ] [];
              mk_thread [ (1%positive, long_add 1) ] [] ])
           (h', ts') →
       joined ts' →
       c_sd_atomic_long_load h' 1 = Some 10
       ∧ all_returned ts' ≡ₚ [ret_long 7; ret_long 8; ret_long 9]
       ∧ NoDup (all_returned ts')).
Proof.
  assert (H0 : ({[ 1%positive := c_sd_atomic_long 7 ]}
                  : gmap positive object) !! 1%positive
               = Some (c_sd_atomic_long 7)) by reflexivity.
  assert (Hnone : Forall (λ t, returned t = [])
            [ mk_thread [ (1%positive, long_add 1); (1%positive, long_add 1) ] [];
              mk_thread [ (1%positive, long_add 1) ] [] ])
    by (by repeat constructor).
  assert (Hall : Forall (λ t, Forall (λ pc : positive * call,
                                        pc = (1%positive, long_add 1))
                                     (todo t))
            [ mk_thread [ (1%positive, long_add 1); (1%positive, long_add 1) ] [];
              mk_thread [ (1%positive, long_add 1) ] [] ])
    by (by repeat constructor).
  assert (Hlast : in_long 64
            (7 + Z.of_nat
                   (remaining
                      [ mk_thread [ (1%positive, long_add 1);
                                    (1%positive, long_add 1) ] [];
                        mk_thread [ (1%positive, long_add 1) ] [] ]))).
  { change (remaining _) with 3%nat. unfold in_long, in_signed. lia. }
  exact (c_sd_atomic_long_add_tickets 64 1 _ 7 _ ltac:(lia)
           ltac:(unfold in_long, in_signed; lia) Hlast H0 Hnone Hall).
Defined.
